(** * BlockGame: the round lifecycle and the performance statistics

    A shallow embedding of [BlockMemoryGameSequence] (src/BlockGame.py).
    The object's attributes become the fields of [State]; every method is a
    program of the state-and-exception monad [M] over that record.  The
    widgets the methods configure (grid buttons, the two control buttons,
    the message label) and the callbacks queued with [after] are part of
    the state, so that the phase of a round can be read off the state the
    same way the running program shows it. *)

From Stdlib Require Import ZArith Floats Ascii String.
From stdpp Require Import base list strings.

Local Open Scope Z_scope.

(** ** Python values *)

(** Python's [float] is an IEEE 754 binary64, which is what Rocq's
    primitive floats are. *)
Abbreviation float := PrimFloat.float.

(** [float(n)] for an [int]: the nearest binary64, ties to even.  (CPython
    raises [OverflowError] beyond the range of a double; the normalisation
    below gives an infinity there.) *)
Definition float_of_int (n : Z) : float :=
  SF2Prim (binary_normalize prec emax n 0 false).

(** [seq[i]] with Python's negative indices. *)
Definition py_index {A} (l : list A) (i : Z) : option A :=
  let n := Z.of_nat (length l) in
  if decide (0 ≤ i < n) then l !! Z.to_nat i
  else if decide (- n ≤ i < 0) then l !! Z.to_nat (n + i)
  else None.

(** The position [seq[i]] designates, when it designates one. *)
Definition py_slot {A} (l : list A) (i : Z) : option nat :=
  let n := Z.of_nat (length l) in
  if decide (0 ≤ i < n) then Some (Z.to_nat i)
  else if decide (- n ≤ i < 0) then Some (Z.to_nat (n + i))
  else None.

(** [range(n)] *)
Definition range (n : Z) : list Z := seqZ 0 n.

Inductive Exn := IndexError | ValueError | TypeError | TclError.

(** ** The data of the game *)

Abbreviation Position := (Z * Z)%type.

Inductive Color := lightgray | red | green | yellow.

Definition default_color := lightgray.
Definition highlight_color := red.
Definition correct_select_color := green.
Definition wrong_select_color := yellow.

Inductive WidgetState := normal | disabled.

(** A [tk.Button] of the grid: the two options the program configures. *)
Record Button := mkButton { bg : Color; state : WidgetState }.

(** The texts the message label is given. *)
Inductive Message :=
| MsgNone
| MsgWatch (level : Z)
| MsgClick
| MsgReplaying
| MsgComplete (level : Z)
| MsgWrong (level : Z).

(** The value of [record["result"]]: the string "Success" or "Fail". *)
Inductive Result := Success | Fail.

(** [datetime.date]. *)
Record Date := mkDate { year : Z; month : Z; day : Z }.

(** One dict of [performance_data]. *)
Record RoundRecord := mkRecord {
  rec_round : Z;
  rec_level : Z;
  rec_result : Result;
  rec_time : float;
  rec_replays : Z;
  rec_date : Date;
  rec_month_key : string;
  rec_streak_after_round : Z
}.

(** What [after] was asked to call. *)
Inductive Callback :=
| CbHide (index : Z)     (* lambda: self.hide_sequence_step(index) *)
| CbShow (index : Z).    (* lambda: self.show_sequence_step(index) *)

Record State := mkState {
  grid_size : Z;
  level : Z;
  initial_sequence_length : Z;
  buttons : list (list Button);
  correct_sequence : list Position;
  sequence_index : Z;
  showing_sequence : bool;
  round_start_time : option float;
  replay_count : Z;
  performance_data : list RoundRecord;
  current_streak : Z;
  longest_streak : Z;
  message_label : Message;
  next_button : WidgetState;
  show_pattern_button : WidgetState;
  timers : list (Z * Callback)
}.

(** Assignments to the attributes that the methods write. *)
Definition set_level (v : Z) (s : State) : State :=
  mkState (grid_size s) v (initial_sequence_length s) (buttons s)
    (correct_sequence s) (sequence_index s) (showing_sequence s)
    (round_start_time s) (replay_count s) (performance_data s)
    (current_streak s) (longest_streak s) (message_label s) (next_button s)
    (show_pattern_button s) (timers s).
Definition set_buttons (v : list (list Button)) (s : State) : State :=
  mkState (grid_size s) (level s) (initial_sequence_length s) v
    (correct_sequence s) (sequence_index s) (showing_sequence s)
    (round_start_time s) (replay_count s) (performance_data s)
    (current_streak s) (longest_streak s) (message_label s) (next_button s)
    (show_pattern_button s) (timers s).
Definition set_correct_sequence (v : list Position) (s : State) : State :=
  mkState (grid_size s) (level s) (initial_sequence_length s) (buttons s)
    v (sequence_index s) (showing_sequence s)
    (round_start_time s) (replay_count s) (performance_data s)
    (current_streak s) (longest_streak s) (message_label s) (next_button s)
    (show_pattern_button s) (timers s).
Definition set_sequence_index (v : Z) (s : State) : State :=
  mkState (grid_size s) (level s) (initial_sequence_length s) (buttons s)
    (correct_sequence s) v (showing_sequence s)
    (round_start_time s) (replay_count s) (performance_data s)
    (current_streak s) (longest_streak s) (message_label s) (next_button s)
    (show_pattern_button s) (timers s).
Definition set_showing_sequence (v : bool) (s : State) : State :=
  mkState (grid_size s) (level s) (initial_sequence_length s) (buttons s)
    (correct_sequence s) (sequence_index s) v
    (round_start_time s) (replay_count s) (performance_data s)
    (current_streak s) (longest_streak s) (message_label s) (next_button s)
    (show_pattern_button s) (timers s).
Definition set_round_start_time (v : option float) (s : State) : State :=
  mkState (grid_size s) (level s) (initial_sequence_length s) (buttons s)
    (correct_sequence s) (sequence_index s) (showing_sequence s)
    v (replay_count s) (performance_data s)
    (current_streak s) (longest_streak s) (message_label s) (next_button s)
    (show_pattern_button s) (timers s).
Definition set_replay_count (v : Z) (s : State) : State :=
  mkState (grid_size s) (level s) (initial_sequence_length s) (buttons s)
    (correct_sequence s) (sequence_index s) (showing_sequence s)
    (round_start_time s) v (performance_data s)
    (current_streak s) (longest_streak s) (message_label s) (next_button s)
    (show_pattern_button s) (timers s).
Definition set_performance_data (v : list RoundRecord) (s : State) : State :=
  mkState (grid_size s) (level s) (initial_sequence_length s) (buttons s)
    (correct_sequence s) (sequence_index s) (showing_sequence s)
    (round_start_time s) (replay_count s) v
    (current_streak s) (longest_streak s) (message_label s) (next_button s)
    (show_pattern_button s) (timers s).
Definition set_current_streak (v : Z) (s : State) : State :=
  mkState (grid_size s) (level s) (initial_sequence_length s) (buttons s)
    (correct_sequence s) (sequence_index s) (showing_sequence s)
    (round_start_time s) (replay_count s) (performance_data s)
    v (longest_streak s) (message_label s) (next_button s)
    (show_pattern_button s) (timers s).
Definition set_longest_streak (v : Z) (s : State) : State :=
  mkState (grid_size s) (level s) (initial_sequence_length s) (buttons s)
    (correct_sequence s) (sequence_index s) (showing_sequence s)
    (round_start_time s) (replay_count s) (performance_data s)
    (current_streak s) v (message_label s) (next_button s)
    (show_pattern_button s) (timers s).
Definition set_message_label (v : Message) (s : State) : State :=
  mkState (grid_size s) (level s) (initial_sequence_length s) (buttons s)
    (correct_sequence s) (sequence_index s) (showing_sequence s)
    (round_start_time s) (replay_count s) (performance_data s)
    (current_streak s) (longest_streak s) v (next_button s)
    (show_pattern_button s) (timers s).
Definition set_next_button (v : WidgetState) (s : State) : State :=
  mkState (grid_size s) (level s) (initial_sequence_length s) (buttons s)
    (correct_sequence s) (sequence_index s) (showing_sequence s)
    (round_start_time s) (replay_count s) (performance_data s)
    (current_streak s) (longest_streak s) (message_label s) v
    (show_pattern_button s) (timers s).
Definition set_show_pattern_button (v : WidgetState) (s : State) : State :=
  mkState (grid_size s) (level s) (initial_sequence_length s) (buttons s)
    (correct_sequence s) (sequence_index s) (showing_sequence s)
    (round_start_time s) (replay_count s) (performance_data s)
    (current_streak s) (longest_streak s) (message_label s) (next_button s)
    v (timers s).
Definition set_timers (v : list (Z * Callback)) (s : State) : State :=
  mkState (grid_size s) (level s) (initial_sequence_length s) (buttons s)
    (correct_sequence s) (sequence_index s) (showing_sequence s)
    (round_start_time s) (replay_count s) (performance_data s)
    (current_streak s) (longest_streak s) (message_label s) (next_button s)
    (show_pattern_button s) v.

(** ** The monad of the methods

    A method call takes the object's state and ends either normally with a
    value or by raising; in both cases the attributes keep what was written
    to them up to that point (Tk reports an exception raised by a callback
    and carries on with the main loop). *)
Definition M (A : Type) : Type := State → (Exn + A) * State.

Definition ret {A} (a : A) : M A := λ s, (inr a, s).
Definition bind {A B} (m : M A) (k : A → M B) : M B :=
  λ s, match m s with
       | (inr a, s') => k a s'
       | (inl e, s') => (inl e, s')
       end.
Definition raise {A} (e : Exn) : M A := λ s, (inl e, s).
Definition get : M State := λ s, (inr s, s).
Definition modify (f : State → State) : M unit := λ s, (inr tt, f s).

Declare Scope py_scope.
Delimit Scope py_scope with py.
Notation "x <- m ;; k" := (bind m (λ x, k))
  (at level 100, m at next level, right associativity) : py_scope.
Notation "m ;; k" := (bind m (λ _, k))
  (at level 100, right associativity) : py_scope.
Notation "'skip'" := (ret tt) : py_scope.

(** [for x in xs: body] *)
Fixpoint for_each {A} (xs : list A) (body : A → M unit) : M unit :=
  match xs with
  | [] => ret tt
  | x :: xs' => bind (body x) (λ _, for_each xs' body)
  end.

(** [if c: body] with no [else]. *)
Definition when (c : bool) (body : M unit) : M unit :=
  if c then body else ret tt.

(** Reading an attribute. *)
Definition gets {A} (f : State → A) : M A := bind get (λ s, ret (f s)).

Local Open Scope py_scope.

(** ** What a callback gets from outside

    The answers of [time.time()], [datetime.now()] (only its date is used)
    and of the random generator ([draw w i] is the [i]-th raw draw of a
    call of [random.sample]) during one run of a callback. *)
Record World := mkWorld {
  time_time : float;
  datetime_now : Date;
  draw : nat → nat
}.

(** ** [random.sample]

    The selection loop of CPython's [random.sample] over a copy [pool] of
    the population ([n = len(population)]):
<<
    for i in range(k):
        j = randbelow(n - i)
        result[i] = pool[j]
        pool[j] = pool[n - i - 1]
>>
    [todo] counts the iterations that remain. *)
Fixpoint sample_loop {A} (pool : list A) (n : nat) (rnd : nat → nat)
    (i todo : nat) : list A :=
  match todo with
  | O => []
  | S todo' =>
      let j := (rnd i `mod` (n - i))%nat in
      match pool !! j, pool !! (n - i - 1)%nat with
      | Some x, Some y => x :: sample_loop (<[j:=y]> pool) n rnd (S i) todo'
      | _, _ => []
      end
  end.

(** [random.sample(population, k)]: [ValueError] when [k] is negative or
    larger than the population. *)
Definition random_sample {A} (population : list A) (k : Z) (rnd : nat → nat)
    : Exn + list A :=
  let n := length population in
  if decide (0 ≤ k ≤ Z.of_nat n)
  then inr (sample_loop population n rnd 0 (Z.to_nat k))
  else inl ValueError.

(** ** Dates as text *)

Definition digit (n : Z) : ascii := ascii_of_nat (48 + Z.to_nat (n `mod` 10)).

(** [%02d] and [%04d] *)
Definition pad2 (n : Z) (rest : string) : string :=
  String (digit (n `div` 10)) (String (digit n) rest).
Definition pad4 (n : Z) (rest : string) : string :=
  String (digit (n `div` 1000)) (String (digit (n `div` 100)) (pad2 n rest)).

(** [d.isoformat()], 'YYYY-MM-DD' *)
Definition isoformat (d : Date) : string :=
  pad4 (year d) (String "-" (pad2 (month d) (String "-" (pad2 (day d) "")))).

(** [now.strftime("%Y-%m")], 'YYYY-MM' *)
Definition strftime_Ym (d : Date) : string :=
  pad4 (year d) (String "-" (pad2 (month d) "")).

(** ** The methods *)

(** [btn.configure(bg=..., state=...)], each option given or not. *)
Definition configure (c : option Color) (st : option WidgetState) (b : Button)
    : Button :=
  mkButton (default (bg b) c) (default (state b) st).

(** [self.buttons[row][col].configure(...)] *)
Definition configure_button (row col : Z) (c : option Color)
    (st : option WidgetState) : M unit :=
  s <- get ;;
  match py_slot (buttons s) row with
  | None => raise IndexError
  | Some i =>
      match buttons s !! i ≫= (λ row_buttons, py_slot row_buttons col) with
      | None => raise IndexError
      | Some j =>
          modify (set_buttons (alter (alter (configure c st) j) i (buttons s)))
      end
  end.

(** [self.after(ms, callback)] *)
Definition after (ms : Z) (cb : Callback) : M unit :=
  modify (λ s, set_timers (timers s ++ [(ms, cb)]) s).

(** [widget.grid(row=..., column=..., columnspan=...)]: Tk's grid
    geometry manager takes a row and a column of 0 or more and a column
    span of 1 or more, and raises [TclError] for anything else. *)
Definition grid (row column columnspan : Z) : M unit :=
  if decide (0 ≤ row ∧ 0 ≤ column ∧ 1 ≤ columnspan) then ret tt
  else raise TclError.

(** The inner loop of [create_widgets]: the buttons of row [row], each
    made grey and enabled and put into the grid, then appended to
    [row_buttons]. *)
Fixpoint new_row (row : Z) (cols : list Z) (row_buttons : list Button)
    : M (list Button) :=
  match cols with
  | [] => ret row_buttons
  | col :: cols' =>
      grid row col 1 ;;
      new_row row cols' (row_buttons ++ [mkButton default_color normal])
  end.

Definition create_widgets : M unit :=
  gs <- gets grid_size ;;
  for_each (range gs) (λ row,
    gs' <- gets grid_size ;;
    row_buttons <- new_row row (range gs') [] ;;
    modify (λ s, set_buttons (buttons s ++ [row_buttons]) s)) ;;
  modify (set_message_label MsgNone) ;;
  gs <- gets grid_size ;;
  grid gs 0 gs ;;
  modify (set_next_button disabled) ;;
  gs <- gets grid_size ;;
  grid (gs + 1) 0 gs ;;
  modify (set_show_pattern_button disabled) ;;
  gs <- gets grid_size ;;
  grid (gs + 2) 0 gs ;;
  gs <- gets grid_size ;;
  grid (gs + 3) 0 gs.

Definition finish_showing_sequence : M unit :=
  modify (set_showing_sequence false) ;;
  gs <- gets grid_size ;;
  for_each (range gs) (λ row,
    gs' <- gets grid_size ;;
    for_each (range gs') (λ col,
      configure_button row col None (Some normal))) ;;
  modify (set_message_label MsgClick) ;;
  modify (set_show_pattern_button normal).

Definition show_sequence_step (index : Z) : M unit :=
  s <- get ;;
  if decide (index >= Z.of_nat (length (correct_sequence s)))
  then finish_showing_sequence
  else
    match py_index (correct_sequence s) index with
    | None => raise IndexError
    | Some (r, c) =>
        configure_button r c (Some highlight_color) None ;;
        after 1000 (CbHide index)
    end.

Definition hide_sequence_step (index : Z) : M unit :=
  s <- get ;;
  match py_index (correct_sequence s) index with
  | None => raise IndexError
  | Some (r, c) =>
      configure_button r c (Some default_color) None ;;
      after 200 (CbShow (index + 1))
  end.

Definition start_new_round (w : World) : M unit :=
  modify (set_sequence_index 0) ;;
  modify (set_showing_sequence true) ;;
  modify (set_replay_count 0) ;;
  modify (set_next_button disabled) ;;
  modify (set_show_pattern_button disabled) ;;
  modify (set_round_start_time (Some (time_time w))) ;;
  gs <- gets grid_size ;;
  for_each (range gs) (λ row,
    gs' <- gets grid_size ;;
    for_each (range gs') (λ col,
      configure_button row col (Some default_color) (Some disabled))) ;;
  modify (λ s, set_message_label (MsgWatch (level s)) s) ;;
  s <- get ;;
  let total_cells := grid_size s * grid_size s in
  let sequence_length :=
    Z.min total_cells (initial_sequence_length s + (level s - 1)) in
  let all_positions :=
    r ← range (grid_size s); c ← range (grid_size s); [(r, c)] in
  match random_sample all_positions sequence_length (draw w) with
  | inl e => raise e
  | inr sample =>
      modify (set_correct_sequence sample) ;;
      show_sequence_step 0
  end.

Definition end_round (w : World) (success : bool) : M unit :=
  gs <- gets grid_size ;;
  for_each (range gs) (λ row,
    gs' <- gets grid_size ;;
    for_each (range gs') (λ col,
      configure_button row col None (Some disabled))) ;;
  let round_end_time := time_time w in
  start <- gets round_start_time ;;
  match start with
  | None => raise TypeError
  | Some started =>
      let time_taken := PrimFloat.sub round_end_time started in
      (if success then
         modify (λ s, set_current_streak (current_streak s + 1) s) ;;
         s <- get ;;
         when (bool_decide (current_streak s > longest_streak s))
              (modify (set_longest_streak (current_streak s)))
       else
         modify (set_current_streak 0)) ;;
      let now := datetime_now w in
      s <- get ;;
      let record := {|
        rec_round := Z.of_nat (length (performance_data s)) + 1;
        rec_level := level s;
        rec_result := if success then Success else Fail;
        rec_time := time_taken;
        rec_replays := replay_count s;
        rec_date := now;
        rec_month_key := strftime_Ym now;
        rec_streak_after_round := current_streak s
      |} in
      modify (λ s, set_performance_data (performance_data s ++ [record]) s) ;;
      (if success then
         modify (λ s, set_message_label (MsgComplete (level s)) s) ;;
         modify (λ s, set_level (level s + 1) s)
       else
         modify (λ s, set_message_label (MsgWrong (level s)) s) ;;
         modify (set_level 1)) ;;
      modify (set_next_button normal) ;;
      modify (set_show_pattern_button disabled)
  end.

Definition on_block_click (w : World) (row col : Z) : M unit :=
  s <- get ;;
  if showing_sequence s then ret tt
  else
    match py_index (correct_sequence s) (sequence_index s) with
    | None => raise IndexError
    | Some correct_position =>
        if decide ((row, col) = correct_position) then
          configure_button row col (Some correct_select_color) (Some disabled) ;;
          modify (λ s, set_sequence_index (sequence_index s + 1) s) ;;
          s <- get ;;
          when (bool_decide
                  (sequence_index s = Z.of_nat (length (correct_sequence s))))
               (end_round w true)
        else
          configure_button row col (Some wrong_select_color) (Some disabled) ;;
          end_round w false
    end.

Definition show_pattern_again : M unit :=
  modify (λ s, set_replay_count (replay_count s + 1) s) ;;
  modify (set_showing_sequence true) ;;
  modify (set_message_label MsgReplaying) ;;
  gs <- gets grid_size ;;
  for_each (range gs) (λ row,
    gs' <- gets grid_size ;;
    for_each (range gs') (λ col,
      configure_button row col None (Some disabled))) ;;
  show_sequence_step 0.

(** [BlockMemoryGameSequence(grid_size, initial_sequence_length,
    initial_level)]: the attributes as [__init__] sets them, then
    [create_widgets] and the first [start_new_round]. *)
Definition blank (gs isl il : Z) : State := {|
  grid_size := gs;
  level := il;
  initial_sequence_length := isl;
  buttons := [];
  correct_sequence := [];
  sequence_index := 0;
  showing_sequence := false;
  round_start_time := None;
  replay_count := 0;
  performance_data := [];
  current_streak := 0;
  longest_streak := 0;
  message_label := MsgNone;
  next_button := disabled;
  show_pattern_button := disabled;
  timers := []
|}.

Definition init (w : World) (gs isl il : Z) : (Exn + unit) * State :=
  (create_widgets ;; start_new_round w) (blank gs isl il).

(** ** The main loop

    What Tk may deliver: a press on the grid button at ([row], [col]), on
    "Next Round" or on "Show Pattern Again", or the [k]-th callback that
    is waiting in the [after] queue.  A press on a disabled button calls
    nothing. *)
Inductive Event :=
| Click (row col : nat)
| NextRound
| ShowPatternAgain
| Timer (k : nat).

Definition run_callback (cb : Callback) : M unit :=
  match cb with
  | CbHide index => hide_sequence_step index
  | CbShow index => show_sequence_step index
  end.

Definition dispatch (w : World) (e : Event) : M unit :=
  s <- get ;;
  match e with
  | Click row col =>
      match buttons s !! row ≫= (.!! col) with
      | Some b =>
          match state b with
          | normal => on_block_click w (Z.of_nat row) (Z.of_nat col)
          | disabled => ret tt
          end
      | None => ret tt
      end
  | NextRound =>
      match next_button s with
      | normal => start_new_round w
      | disabled => ret tt
      end
  | ShowPatternAgain =>
      match show_pattern_button s with
      | normal => show_pattern_again
      | disabled => ret tt
      end
  | Timer k =>
      match timers s !! k with
      | Some (_, cb) =>
          modify (set_timers (delete k (timers s))) ;; run_callback cb
      | None => ret tt
      end
  end.

(** One turn of the main loop: an exception raised by the callback is
    reported and the loop goes on with the state as it is. *)
Definition step (s : State) (ev : World * Event) : State :=
  snd (dispatch ev.1 ev.2 s).

Definition run (evs : list (World * Event)) (s : State) : State :=
  foldl step s evs.

(** ** The phase of the round, as the state shows it

    The sequence is being shown while [showing_sequence] is set; the round
    is over from [end_round], which enables "Next Round", until
    [start_new_round] disables it again. *)
Inductive Phase :=
| Displaying
| AwaitingInput (cursor : Z)
| Resolved (outcome : option Result).

Definition phase (s : State) : Phase :=
  if showing_sequence s then Displaying
  else match next_button s with
       | disabled => AwaitingInput (sequence_index s)
       | normal => Resolved (rec_result <$> last (performance_data s))
       end.

(** ** The statistics *)

(** A Python number: the average is a float, or the int [0] of the
    conditional's other branch. *)
Inductive Number := PyInt (n : Z) | PyFloat (f : float).

(** The inner dict of a summary; the key 'avg_time' is only there
    ([Some]) once the second loop has put it. *)
Record Stats := mkStats {
  rounds : Z;
  success : Z;
  fail : Z;
  total_time : float;
  avg_time : option Number
}.

(** A [dict] with string keys: the items in insertion order. *)
Definition Dict (V : Type) : Type := list (string * V).

Fixpoint dict_get {V} (d : Dict V) (k : string) : option V :=
  match d with
  | [] => None
  | (k', v) :: d' => if decide (k' = k) then Some v else dict_get d' k
  end.

(** [d[k] = v]: in place when the key is there, else at the end. *)
Fixpoint dict_set {V} (k : string) (v : V) (d : Dict V) : Dict V :=
  match d with
  | [] => [(k, v)]
  | (k', v') :: d' =>
      if decide (k' = k) then (k, v) :: d' else (k', v') :: dict_set k v d'
  end.

(** [d[k][field] = f(d[k][field])] for a key that is there. *)
Fixpoint dict_update {V} (f : V → V) (k : string) (d : Dict V) : Dict V :=
  match d with
  | [] => []
  | (k', v) :: d' =>
      if decide (k' = k) then (k', f v) :: d' else (k', v) :: dict_update f k d'
  end.

Definition add_round (st : Stats) : Stats :=
  mkStats (rounds st + 1) (success st) (fail st) (total_time st) (avg_time st).
Definition add_success (st : Stats) : Stats :=
  mkStats (rounds st) (success st + 1) (fail st) (total_time st) (avg_time st).
Definition add_fail (st : Stats) : Stats :=
  mkStats (rounds st) (success st) (fail st + 1) (total_time st) (avg_time st).
Definition add_time (t : float) (st : Stats) : Stats :=
  mkStats (rounds st) (success st) (fail st) (PrimFloat.add (total_time st) t)
          (avg_time st).
Definition put_avg_time (a : Number) (st : Stats) : Stats :=
  mkStats (rounds st) (success st) (fail st) (total_time st) (Some a).

(** The body of the first loop of both summaries, for the record's key. *)
Definition count_record (key : string) (record : RoundRecord)
    (d : Dict Stats) : Dict Stats :=
  let d :=
    match dict_get d key with
    | None => dict_set key (mkStats 0 0 0 0%float None) d
    | Some _ => d
    end in
  let d := dict_update add_round key d in
  let d :=
    match rec_result record with
    | Success => dict_update add_success key d
    | Fail => dict_update add_fail key d
    end in
  dict_update (add_time (rec_time record)) key d.

(** The body of the second loop. *)
Definition average (stats : Stats) : Stats :=
  let avg_time :=
    if decide (rounds stats > 0)
    then PyFloat (PrimFloat.div (total_time stats) (float_of_int (rounds stats)))
    else PyInt 0 in
  put_avg_time avg_time stats.

Definition _compute_daily_stats (performance_data : list RoundRecord)
    : Dict Stats :=
  let daily :=
    foldl (λ daily record,
             let day_str := isoformat (rec_date record) in
             count_record day_str record daily)
          [] performance_data in
  (λ '(day_str, stats), (day_str, average stats)) <$> daily.

Definition _compute_monthly_stats (performance_data : list RoundRecord)
    : Dict Stats :=
  let monthly :=
    foldl (λ monthly record,
             let m_key := rec_month_key record in
             count_record m_key record monthly)
          [] performance_data in
  (λ '(m_key, stats), (m_key, average stats)) <$> monthly.

(** The grid of buttons is the [grid_size] by [grid_size] one that
    [create_widgets] builds. *)
Definition grid_ok (s : State) : Prop :=
  length (buttons s) = Z.to_nat (grid_size s) ∧
  Forall (λ row_buttons, length row_buttons = Z.to_nat (grid_size s))
         (buttons s).

(** The state is one in which the methods run without raising: the grid
    is in place and a round has been started. *)
Definition ready (s : State) : Prop :=
  grid_ok s ∧ is_Some (round_start_time s).

(** The record that [end_round] builds in state [s] (the streak already
    updated to [streak]). *)
Definition round_record (w : World) (success : bool) (started : float)
    (streak : Z) (s : State) : RoundRecord := {|
  rec_round := Z.of_nat (length (performance_data s)) + 1;
  rec_level := level s;
  rec_result := if success then Success else Fail;
  rec_time := PrimFloat.sub (time_time w) started;
  rec_replays := replay_count s;
  rec_date := datetime_now w;
  rec_month_key := strftime_Ym (datetime_now w);
  rec_streak_after_round := streak
|}.

(** What a completed call of [end_round] has done to the state. *)
Record EndRound (w : World) (success : bool) (started : float)
    (s s' : State) : Prop := {
  er_streak :
    current_streak s' = if success then current_streak s + 1 else 0;
  er_longest :
    longest_streak s' =
      if success then Z.max (longest_streak s) (current_streak s + 1)
      else longest_streak s;
  er_log :
    performance_data s' =
      performance_data s
        ++ [round_record w success started (current_streak s') s];
  er_level : level s' = if success then level s + 1 else 1;
  er_next : next_button s' = normal;
  er_show : show_pattern_button s' = disabled;
  er_buttons :
    buttons s' = fmap (M:=list) (configure None (Some disabled)) <$> buttons s;
  er_grid_size : grid_size s' = grid_size s;
  er_initial : initial_sequence_length s' = initial_sequence_length s;
  er_sequence : correct_sequence s' = correct_sequence s;
  er_index : sequence_index s' = sequence_index s;
  er_showing : showing_sequence s' = showing_sequence s;
  er_started : round_start_time s' = round_start_time s;
  er_replays : replay_count s' = replay_count s;
  er_timers : timers s' = timers s
}.

(** ** A game to run the definitions on

    A 2 by 2 grid, sequences of length 3 at level 1; the clock reads 10 and
    then 12.5 seconds on 2025-02-03, and the [i]-th random draw is [i]. *)
Definition demo_world : World := mkWorld 10 (mkDate 2025 2 3) (λ i, i).
Definition demo_later : World := mkWorld 12.5 (mkDate 2025 2 3) (λ i, i).

(** The game as constructed: the first cell of the sequence is lit. *)
Definition demo_start : State :=
  Eval vm_compute in snd (init demo_world 2 3 1).

(** The six callbacks of the display have run: the game awaits input. *)
Definition demo_awaiting : State :=
  Eval vm_compute in run (replicate 6 (demo_later, Timer 0%nat)) demo_start.

(** A wrong first click has ended the round. *)
Definition demo_failed : State :=
  Eval vm_compute in run [(demo_later, Click 1 0)] demo_awaiting.

(** Three right clicks have ended the round. *)
Definition demo_won : State :=
  Eval vm_compute in
  run [(demo_later, Click 0 0); (demo_later, Click 0 1);
       (demo_later, Click 1 1)] demo_awaiting.

(** Every position of the sequence is a cell of the grid. *)
Definition sequence_in_grid (s : State) : Prop :=
  ∀ r c, (r, c) ∈ correct_sequence s →
         0 ≤ r < grid_size s ∧ 0 ≤ c < grid_size s.

(** ** Rounds ended one after the other *)

(** [end_round(success)] with what the clock reads at that call; the state
    it leaves is the one the next call starts from. *)
Definition finalize (s : State) (x : World * bool) : State :=
  snd (end_round x.1 x.2 s).

Definition finalize_all (xs : list (World * bool)) (s : State) : State :=
  foldl finalize s xs.

(** ** Runs of successes in a list of outcomes ([true] is a success) *)

(** The number of successes the list starts with. *)
Fixpoint leading_run (os : list bool) : nat :=
  match os with
  | true :: os' => S (leading_run os')
  | _ => 0
  end.

(** The number of successes the list ends with. *)
Definition trailing_run (os : list bool) : nat := leading_run (reverse os).

(** The length of the longest block of consecutive successes. *)
Fixpoint max_run (os : list bool) : nat :=
  match os with
  | [] => 0
  | _ :: os' => Nat.max (leading_run os) (max_run os')
  end.

(** ** What every method keeps

    [keeps P m]: when [P] holds before [m] runs it holds after, whether
    [m] returns or raises. *)
Definition keeps (P : State → Prop) {A} (m : M A) : Prop :=
  ∀ s, P s → P (snd (m s)).

(** [P] does not look at the grid buttons nor at the [after] queue. *)
Definition widget_blind (P : State → Prop) : Prop :=
  (∀ bs s, P s → P (set_buttons bs s)) ∧
  (∀ ts s, P s → P (set_timers ts s)).

(** ** The summaries, said by key

    What a summary should hold for one key: the count of the records with
    that key, how many of them are successes and failures, and the total of
    their times (added up in log order, from 0.0) divided by the count. *)

Global Instance Result_eq_dec : EqDecision Result.
Proof. solve_decision. Defined.

Global Instance Date_eq_dec : EqDecision Date.
Proof. solve_decision. Defined.

(** The records of the log whose key is [k]. *)
Definition keyed (key : RoundRecord → string) (k : string)
    (log : list RoundRecord) : list RoundRecord :=
  filter (λ r, key r = k) log.

(** The records of the log dated [d]. *)
Definition dated (d : Date) (log : list RoundRecord) : list RoundRecord :=
  filter (λ r, rec_date r = d) log.

Definition count_result (o : Result) (group : list RoundRecord) : Z :=
  Z.of_nat (length (filter (λ r, rec_result r = o) group)).

Definition time_sum (group : list RoundRecord) : float :=
  foldl (λ acc r, PrimFloat.add acc (rec_time r)) 0%float group.

Definition summary_of (group : list RoundRecord) : Stats := {|
  rounds := Z.of_nat (length group);
  success := count_result Success group;
  fail := count_result Fail group;
  total_time := time_sum group;
  avg_time :=
    Some (PyFloat (PrimFloat.div (time_sum group)
                     (float_of_int (Z.of_nat (length group)))))
|}.

(** The sum of the round counts of a summary. *)
Definition total_rounds (d : Dict Stats) : Z :=
  foldr (λ kv acc, rounds kv.2 + acc) 0 d.

(** A [datetime.date] has its year in 1..9999, its month in 1..12 and its
    day in 1..31 at most. *)
Definition valid_date (d : Date) : Prop :=
  1 ≤ year d ≤ 9999 ∧ 1 ≤ month d ≤ 12 ∧ 1 ≤ day d ≤ 31.

(** What the body of the loop does to the entry of the record's key. *)
Definition tally (record : RoundRecord) (st : Stats) : Stats :=
  add_time (rec_time record)
    (match rec_result record with
     | Success => add_success (add_round st)
     | Fail => add_fail (add_round st)
     end).

(** ** The ways a method can end *)

(** [m] writes nothing but the grid buttons, whether it returns or
    raises. *)
Definition only_buttons {A} (m : M A) : Prop :=
  ∀ s, ∃ r bs, m s = (r, set_buttons bs s).

(** The state [end_round] leaves when it returns, the loop over the board
    having left the buttons [bs]. *)
Definition ended (w : World) (success : bool) (started : float)
    (bs : list (list Button)) (s : State) : State :=
  let streak := if success then current_streak s + 1 else 0 in
  let longest :=
    if success && bool_decide (current_streak s + 1 > longest_streak s)
    then current_streak s + 1 else longest_streak s in
  set_show_pattern_button disabled
    (set_next_button normal
       (set_level (if success then level s + 1 else 1)
          (set_message_label
             (if success then MsgComplete (level s) else MsgWrong (level s))
             (set_performance_data
                (performance_data s
                   ++ [round_record w success started streak s])
                (set_longest_streak longest
                   (set_current_streak streak (set_buttons bs s))))))).

(** ** What the bookkeeping of a game always satisfies *)

(** The outcomes of the logged rounds, [true] for a success. *)
Definition outcomes (log : list RoundRecord) : list bool :=
  (λ r, bool_decide (rec_result r = Success)) <$> log.

Record consistent (s : State) : Prop := {
  cons_rounds :
    rec_round <$> performance_data s
    = seqZ 1 (Z.of_nat (length (performance_data s)));
  cons_current :
    current_streak s = Z.of_nat (trailing_run (outcomes (performance_data s)));
  cons_longest :
    longest_streak s = Z.of_nat (max_run (outcomes (performance_data s)));
  cons_after :
    ∀ (i : nat) r, performance_data s !! i = Some r →
      rec_streak_after_round r
      = Z.of_nat (trailing_run (outcomes (take (S i) (performance_data s))));
  cons_keys :
    Forall (λ r, rec_month_key r = strftime_Ym (rec_date r))
           (performance_data s);
  cons_cursor :
    0 ≤ sequence_index s ≤ Z.of_nat (length (correct_sequence s));
  cons_replays : 0 ≤ replay_count s
}.

(** ** The board and the sequence of a game *)

(** The game was built with [gs] and [isl], its grid is in place, and its
    sequence is made of distinct cells of the grid. *)
Definition board (gs isl : Z) (s : State) : Prop :=
  grid_size s = gs ∧ initial_sequence_length s = isl ∧ grid_ok s ∧
  sequence_in_grid s ∧ NoDup (correct_sequence s).

(** [board], a round started and a level of 1 at least. *)
Definition sound (gs isl : Z) (s : State) : Prop :=
  board gs isl s ∧ is_Some (round_start_time s) ∧ 1 ≤ level s.

(** [safe P E m]: run in a state with [P], [m] leaves a state with [P]
    and raises nothing but what [E] allows. *)
Definition safe (P : State → Prop) (E : Exn → Prop) {A} (m : M A) : Prop :=
  ∀ s, P s →
    P (snd (m s)) ∧ match fst (m s) with inl e => E e | inr _ => True end.

(** The one exception a game has to reckon with. *)
Definition only_index (e : Exn) : Prop := e = IndexError.

(** The state [start_new_round] has built when it calls
    [show_sequence_step(0)], [sample] being what [random.sample]
    returned. *)
Definition round_base (w : World) (sample : list Position) (s : State)
    : State :=
  set_correct_sequence sample
    (set_message_label (MsgWatch (level s))
       (set_buttons
          (fmap (M:=list) (configure (Some default_color) (Some disabled))
             <$> buttons s)
          (set_round_start_time (Some (time_time w))
             (set_show_pattern_button disabled
                (set_next_button disabled
                   (set_replay_count 0
                      (set_showing_sequence true
                         (set_sequence_index 0 s)))))))).

(** The length [start_new_round] asks [random.sample] for. *)
Definition sequence_length (s : State) : Z :=
  Z.min (grid_size s * grid_size s)
        (initial_sequence_length s + (level s - 1)).

(** The buttons after [configure] on the one at position [p]. *)
Definition paint (c : option Color) (st : option WidgetState) (p : Position)
    (bs : list (list Button)) : list (list Button) :=
  alter (alter (configure c st) (Z.to_nat p.2)) (Z.to_nat p.1) bs.

(** The button at position [p]. *)
Definition button_at (bs : list (list Button)) (p : Position)
    : option Button :=
  bs !! Z.to_nat p.1 ≫= (.!! Z.to_nat p.2).

(** The demo game as [start_new_round] has it when the display starts. *)
Definition demo_base : State :=
  Eval vm_compute in
  round_base demo_world [(0, 0); (0, 1); (1, 1)]
    (snd (create_widgets (blank 2 3 1))).

(** ** Playing *)

(** The presses on the cells [ps], one after the other, [ws] being what
    the clock and the calendar read at each. *)
Definition clicks (ws : list World) (ps : list Position)
    : list (World * Event) :=
  zip_with (λ w p, (w, Click (Z.to_nat p.1) (Z.to_nat p.2))) ws ps.

(** The board after the cells [ps] were clicked and found right. *)
Definition marked (ps : list Position) (bs : list (list Button))
    : list (list Button) :=
  foldl (λ bs p, paint (Some correct_select_color) (Some disabled) p bs) bs ps.

(** ** The order of the keys of a summary *)

(** The keys of a list in the order in which each is first met. *)
Fixpoint first_seen (keys : list string) : list string :=
  match keys with
  | [] => []
  | k :: keys' => k :: filter (λ k', k' ≠ k) (first_seen keys')
  end.

(** ** States nothing moves any more *)

(** Nothing is enabled and no callback is waiting. *)
Definition frozen (s : State) : Prop :=
  next_button s = disabled ∧ show_pattern_button s = disabled ∧
  timers s = [] ∧
  ∀ (i j : nat) b, buttons s !! i ≫= (.!! j) = Some b → state b = disabled.


(** ** A display that outlives its round

    The demo game awaits input.  "Show Pattern Again" is pressed twice, so
    that two displays run side by side; the callbacks of the first are run
    to its end, which enables the board; a wrong cell is clicked and the
    round ends with a failure; then the callbacks of the second display
    are run to its end. *)
Definition demo_two_displays : list (World * Event) :=
  [(demo_later, ShowPatternAgain); (demo_later, ShowPatternAgain);
   (demo_later, Timer 0%nat)]
  ++ replicate 5 (demo_later, Timer 1%nat)
  ++ [(demo_later, Click 1 0)]
  ++ replicate 6 (demo_later, Timer 0%nat).

(** The round is resolved and the second display has just ended. *)
Definition demo_reopened : State :=
  Eval vm_compute in run demo_two_displays demo_awaiting.




(** The round is resolved with a failure, the board is disabled, and the
    last callback of the second display is still waiting. *)
Definition demo_late : State :=
  Eval vm_compute in run (take 14 demo_two_displays) demo_awaiting.

(** ** Within a round *)

(** Since [s0] the round is the same one: same sequence and same start
    time; the cursor and the replay count have not gone back and the
    log has lost nothing. *)
Definition same_round (s0 s : State) : Prop :=
  round_start_time s = round_start_time s0 ∧
  correct_sequence s = correct_sequence s0 ∧
  grid_size s = grid_size s0 ∧
  replay_count s0 ≤ replay_count s ∧
  sequence_index s0 ≤ sequence_index s ∧
  performance_data s0 `prefix_of` performance_data s.

(** * Properties *)

(** ** Running the monad *)

Lemma bind_get {B} (k : State → M B) s : bind get k s = k s s.
Proof. reflexivity. Qed.

Lemma bind_gets {A B} (f : State → A) (k : A → M B) s :
  bind (gets f) k s = k (f s) s.
Proof. reflexivity. Qed.

Lemma bind_modify {B} f (k : unit → M B) s : bind (modify f) k s = k tt (f s).
Proof. reflexivity. Qed.

Lemma bind_ret {A B} (a : A) (k : A → M B) s : bind (ret a) k s = k a s.
Proof. reflexivity. Qed.

Lemma bind_ok {A B} (m : M A) (k : A → M B) s a s' :
  m s = (inr a, s') → bind m k s = k a s'.
Proof. unfold bind. by intros ->. Qed.

Lemma bind_raise {A B} (m : M A) (k : A → M B) s e s' :
  m s = (inl e, s') → bind m k s = (inl e, s').
Proof. unfold bind. by intros ->. Qed.

Lemma for_each_app {A} (xs ys : list A) body s :
  for_each (xs ++ ys) body s = (for_each xs body ;; for_each ys body) s.
Proof.
  revert s. induction xs as [|x xs IH]; intros s; simpl.
  - reflexivity.
  - unfold bind in *. destruct (body x s) as [[e|[]] s1]; [done|]. apply IH.
Qed.

Lemma range_seq n : range n = Z.of_nat <$> seq 0 (Z.to_nat n).
Proof.
  unfold range, seqZ. apply list_fmap_ext. intros _ i _. lia.
Qed.

Lemma set_buttons_same s : set_buttons (buttons s) s = s.
Proof. by destruct s. Qed.

(** ** The loops over the grid *)

Lemma py_slot_nat {A} (l : list A) (i : nat) :
  (i < length l)%nat → py_slot l (Z.of_nat i) = Some i.
Proof.
  intros Hi. unfold py_slot. rewrite decide_True by lia.
  by rewrite Nat2Z.id.
Qed.

Lemma py_index_nat {A} (l : list A) (i : nat) :
  (i < length l)%nat → py_index l (Z.of_nat i) = l !! i.
Proof.
  intros Hi. unfold py_index. rewrite decide_True by lia.
  by rewrite Nat2Z.id.
Qed.

Lemma configure_button_ok s (i j : nat) row_buttons b c st :
  buttons s !! i = Some row_buttons →
  row_buttons !! j = Some b →
  configure_button (Z.of_nat i) (Z.of_nat j) c st s
  = (inr tt,
     set_buttons (<[i := <[j := configure c st b]> row_buttons]> (buttons s)) s).
Proof.
  intros Hi Hj. unfold configure_button. rewrite bind_get.
  rewrite py_slot_nat by (by eapply lookup_lt_Some).
  rewrite Hi. simpl. rewrite py_slot_nat by (by eapply lookup_lt_Some).
  unfold modify. do 3 f_equal.
  apply list_eq. intros i'. destruct (decide (i = i')) as [<-|Hne].
  - rewrite list_lookup_alter_eq, Hi. simpl.
    rewrite list_lookup_insert_eq by (by eapply lookup_lt_Some).
    f_equal. apply list_eq. intros j'. destruct (decide (j = j')) as [<-|Hne].
    + rewrite list_lookup_alter_eq, Hj. simpl.
      by rewrite list_lookup_insert_eq by (by eapply lookup_lt_Some).
    + by rewrite list_lookup_alter_ne, list_lookup_insert_ne.
  - by rewrite list_lookup_alter_ne, list_lookup_insert_ne.
Qed.

Lemma for_row s (i : nat) row_buttons c st (j : nat) :
  buttons s !! i = Some row_buttons →
  (j ≤ length row_buttons)%nat →
  for_each (Z.of_nat <$> seq 0 j)
           (λ col, configure_button (Z.of_nat i) col c st) s
  = (inr tt,
     set_buttons (<[i := (configure c st <$> take j row_buttons)
                          ++ drop j row_buttons]> (buttons s)) s).
Proof.
  intros Hi. induction j as [|j IH]; intros Hj.
  - simpl. rewrite drop_0, list_insert_id by done.
    by rewrite set_buttons_same.
  - rewrite seq_S, fmap_app, for_each_app. simpl.
    erewrite bind_ok by (apply IH; lia).
    destruct (lookup_lt_is_Some_2 row_buttons j) as [b Hb]; [lia|].
    erewrite bind_ok; cycle 1.
    { eapply configure_button_ok.
      - simpl. apply list_lookup_insert_eq. by eapply lookup_lt_Some.
      - rewrite lookup_app_r; rewrite length_fmap, length_take_le by lia; [|done].
        rewrite Nat.sub_diag, lookup_drop, Nat.add_0_r. done. }
    unfold ret, set_buttons. simpl. do 2 f_equal.
    rewrite list_insert_insert_eq. f_equal.
    rewrite (take_S_r _ _ _ Hb), fmap_app. simpl.
    rewrite insert_app_r_alt; rewrite length_fmap, length_take_le by lia; [|done].
    rewrite Nat.sub_diag, <- app_assoc. f_equal.
    rewrite (drop_S _ _ _ Hb). done.
Qed.

Lemma for_grid c st s gs :
  gs = grid_size s →
  grid_ok s →
  for_each (range gs) (λ row,
    gs' <- gets grid_size ;;
    for_each (range gs') (λ col, configure_button row col c st)) s
  = (inr tt, set_buttons (fmap (M:=list) (configure c st) <$> buttons s) s).
Proof.
  intros -> [Hlen Hrows]. rewrite range_seq, <- Hlen.
  assert (∀ i, (i ≤ length (buttons s))%nat →
    for_each (Z.of_nat <$> seq 0 i) (λ row,
      gs' <- gets grid_size ;;
      for_each (range gs') (λ col, configure_button row col c st)) s
    = (inr tt, set_buttons ((fmap (M:=list) (configure c st) <$> take i (buttons s))
                            ++ drop i (buttons s)) s)) as Hloop.
  { induction i as [|i IH]; intros Hi.
    - simpl. by rewrite drop_0, set_buttons_same.
    - rewrite seq_S, fmap_app, for_each_app. simpl.
      erewrite bind_ok by (apply IH; lia).
      destruct (lookup_lt_is_Some_2 (buttons s) i) as [rb Hrb]; [lia|].
      assert (length rb = Z.to_nat (grid_size s)) as Hrbl.
      { eapply (Forall_lookup_1 _ _ _ _ Hrows), Hrb. }
      erewrite bind_ok; cycle 1.
      { rewrite bind_gets. simpl. rewrite range_seq, <- Hrbl.
        apply for_row with (row_buttons := rb); [|done]. simpl.
        rewrite lookup_app_r; rewrite length_fmap, length_take_le by lia; [|done].
        by rewrite Nat.sub_diag, lookup_drop, Nat.add_0_r. }
      unfold ret, set_buttons. simpl. do 2 f_equal.
      rewrite take_ge, drop_ge by lia. rewrite app_nil_r.
      rewrite (take_S_r _ _ _ Hrb), fmap_app. simpl.
      rewrite insert_app_r_alt; rewrite length_fmap, length_take_le by lia; [|done].
      rewrite Nat.sub_diag, <- app_assoc. f_equal.
      rewrite (drop_S _ _ _ Hrb). done. }
  rewrite Hloop by done. by rewrite firstn_all, drop_all, app_nil_r.
Qed.

Lemma bind_assoc {A B C} (m : M A) (k : A → M B) (k' : B → M C) s :
  bind (bind m k) k' s = bind m (λ a, bind (k a) k') s.
Proof. unfold bind. by destruct (m s) as [[e|a] s1]. Qed.

Lemma grid_ok_eq s s' :
  grid_size s' = grid_size s → buttons s' = buttons s → grid_ok s → grid_ok s'.
Proof. unfold grid_ok. by intros -> ->. Qed.

Lemma grid_ok_fmap f s s' :
  grid_size s' = grid_size s →
  buttons s' = fmap (M:=list) f <$> buttons s →
  grid_ok s → grid_ok s'.
Proof.
  unfold grid_ok. intros -> -> [Hlen Hrows]. split.
  - by rewrite length_fmap.
  - apply Forall_fmap. eapply Forall_impl; [exact Hrows|].
    intros rb Hrb. simpl. by rewrite length_fmap.
Qed.

Ltac grid_tac :=
  match goal with
  | Hg : grid_ok ?s0 |- grid_ok ?S =>
      first [ exact Hg
            | apply (grid_ok_eq s0 S); [reflexivity | reflexivity | exact Hg]
            | eapply (grid_ok_fmap _ s0 S);
              [reflexivity | reflexivity | exact Hg] ]
  end.

(** One statement of a method body, run on the state at hand. *)
Ltac mstep :=
  first [ rewrite bind_assoc | rewrite bind_get | rewrite bind_gets
        | rewrite bind_modify | rewrite bind_ret
        | erewrite bind_ok by (apply for_grid; [reflexivity | grid_tac]) ].

(** ** [end_round] *)

Lemma end_round_run w success s started :
  grid_ok s → round_start_time s = Some started →
  ∃ s', end_round w success s = (inr tt, s') ∧ EndRound w success started s s'.
Proof.
  intros Hg Ht. unfold end_round. repeat mstep. cbn. rewrite Ht.
  destruct success; repeat mstep; unfold when.
  - case_bool_decide; repeat mstep; eexists; (split; [reflexivity|]);
      split; cbn; try reflexivity; unfold round_record; cbn in *; try lia.
  - unfold modify; cbn. eexists; (split; [reflexivity|]);
      split; cbn; try reflexivity.
Qed.

Lemma grid_ok_insert s (i j : nat) row_buttons b :
  grid_ok s → buttons s !! i = Some row_buttons →
  grid_ok (set_buttons (<[i := <[j := b]> row_buttons]> (buttons s)) s).
Proof.
  intros [Hlen Hrows] Hi. split; simpl.
  - by rewrite length_insert.
  - apply Forall_insert; [done|]. rewrite length_insert.
    eapply (Forall_lookup_1 _ _ _ _ Hrows), Hi.
Qed.

Lemma button_lookup (bs : list (list Button)) (i j : nat) b :
  bs !! i ≫= (.!! j) = Some b →
  ∃ row_buttons, bs !! i = Some row_buttons ∧ row_buttons !! j = Some b.
Proof. destruct (bs !! i) as [rb|]; simpl; [eauto | done]. Qed.

(** ** The phases *)

Lemma phase_displaying s : phase s = Displaying ↔ showing_sequence s = true.
Proof.
  unfold phase. destruct (showing_sequence s), (next_button s);
    intuition congruence.
Qed.

Lemma phase_awaiting s c :
  phase s = AwaitingInput c ↔
  showing_sequence s = false ∧ next_button s = disabled ∧ sequence_index s = c.
Proof.
  unfold phase. destruct (showing_sequence s), (next_button s);
    intuition congruence.
Qed.

Lemma phase_resolved s o :
  phase s = Resolved o ↔
  showing_sequence s = false ∧ next_button s = normal ∧
  rec_result <$> last (performance_data s) = o.
Proof.
  unfold phase. destruct (showing_sequence s), (next_button s);
    intuition congruence.
Qed.

(** ** [on_block_click] *)

(** C1.  While the round awaits input with cursor [c], a click on the cell
    [correct_sequence[c]] moves the cursor to [c + 1]; the round is then
    resolved as a success exactly when [c + 1] is the length of the
    sequence, and otherwise still awaits input.  A click on any other cell
    resolves the round as a failure at once. *)
Theorem on_block_click_awaiting w s c p (i j : nat) b started :
  grid_ok s → round_start_time s = Some started →
  phase s = AwaitingInput c →
  py_index (correct_sequence s) c = Some p →
  buttons s !! i ≫= (.!! j) = Some b →
  ∃ s', on_block_click w (Z.of_nat i) (Z.of_nat j) s = (inr tt, s') ∧
    if decide ((Z.of_nat i, Z.of_nat j) = p) then
      sequence_index s' = c + 1 ∧
      if decide (c + 1 = Z.of_nat (length (correct_sequence s))) then
        phase s' = Resolved (Some Success) ∧
        ∃ r, performance_data s' = performance_data s ++ [r] ∧
             rec_result r = Success
      else
        phase s' = AwaitingInput (c + 1) ∧
        performance_data s' = performance_data s
    else
      sequence_index s' = c ∧
      phase s' = Resolved (Some Fail) ∧
      ∃ r, performance_data s' = performance_data s ++ [r] ∧
           rec_result r = Fail.
Proof.
  intros Hg Ht (Hshow & Hnext & <-)%phase_awaiting Hp Hb.
  destruct (button_lookup _ _ _ _ Hb) as (rb & Hi & Hj).
  unfold on_block_click. rewrite bind_get, Hshow, Hp.
  pose proof (grid_ok_insert s i j rb) as Hg'.
  case_decide as Heq.
  - erewrite bind_ok by (by eapply configure_button_ok).
    repeat mstep. cbn. unfold when. case_bool_decide as Hlen.
    + edestruct (end_round_run w true) as (s' & -> & Hs'); [| |].
      { apply Hg'; [done|]. cbn. exact Hi. }
      { cbn. exact Ht. }
      exists s'. split; [done|]. destruct Hs'. cbn in *.
      split; [lia|]. rewrite decide_True by done. split.
      * apply phase_resolved. rewrite er_log0, last_snoc. by repeat split; try congruence.
      * eauto.
    + eexists. split; [reflexivity|]. cbn. split; [done|].
      rewrite decide_False by done. split; [|done].
      by apply phase_awaiting.
  - erewrite bind_ok by (by eapply configure_button_ok).
    edestruct (end_round_run w false) as (s' & -> & Hs'); [| |].
    { apply Hg'; [done|]. cbn. exact Hi. }
    { cbn. exact Ht. }
    exists s'. split; [done|]. destruct Hs'. cbn in *.
    split; [lia|]. split.
    * apply phase_resolved. rewrite er_log0, last_snoc. by repeat split; try congruence.
    * eauto.
Qed.

Lemma demo_awaiting_grid_ok : grid_ok demo_awaiting.
Proof. split; [reflexivity | by repeat constructor]. Defined.

Lemma on_block_click_awaiting_witness :
  ∃ s', on_block_click demo_later (Z.of_nat 0) (Z.of_nat 0) demo_awaiting
        = (inr tt, s')
        ∧ sequence_index s' = 0 + 1
        ∧ phase s' = AwaitingInput (0 + 1)
        ∧ performance_data s' = performance_data demo_awaiting.
Proof.
  exact (on_block_click_awaiting demo_later demo_awaiting 0 (0, 0) 0 0
           (mkButton lightgray normal) 10%float
           demo_awaiting_grid_ok eq_refl eq_refl eq_refl eq_refl).
Defined.

(** ** Input out of phase *)

Lemma on_block_click_displaying w row col s :
  showing_sequence s = true → on_block_click w row col s = (inr tt, s).
Proof. intros Hs. unfold on_block_click. by rewrite bind_get, Hs. Qed.

Lemma click_disabled w (i j : nat) s :
  (∀ b, buttons s !! i ≫= (.!! j) = Some b → state b = disabled) →
  dispatch w (Click i j) s = (inr tt, s).
Proof.
  intros Hd. unfold dispatch. rewrite bind_get.
  destruct (buttons s !! i ≫= (.!! j)) as [b|] eqn:Hb; [|done].
  by rewrite (Hd b eq_refl).
Qed.

Lemma configured_disabled (bs : list (list Button)) c (i j : nat) b :
  (fmap (M:=list) (configure c (Some disabled)) <$> bs) !! i ≫= (.!! j)
    = Some b →
  state b = disabled.
Proof.
  rewrite list_lookup_fmap. destruct (bs !! i) as [rb|]; simpl; [|done].
  rewrite list_lookup_fmap. destruct (rb !! j) as [b'|]; simpl; [|done].
  by intros [= <-].
Qed.

(** C2.  A selection after the round is resolved is not always ignored.
    In the demo game, built by the constructor and brought to the
    awaiting phase by the six callbacks of its display, the events of
    [demo_two_displays] are all delivered by the main loop: two presses on
    "Show Pattern Again", which [show_pattern_again] leaves enabled, start
    two displays; the first ends and enables the board, a wrong click
    resolves the round with a failure and [end_round] disables the board;
    then the second display ends and [finish_showing_sequence] enables the
    board again.  The round is resolved, one record is logged, and the
    next click on a cell reaches [on_block_click], which ends the round a
    second time: a second record is logged. *)
Theorem resolved_click_logs_second_record :
  run (replicate 6 (demo_later, Timer 0%nat) ++ demo_two_displays)
      (snd (init demo_world 2 3 1)) = demo_reopened ∧
  fst (init demo_world 2 3 1) = inr tt ∧
  phase demo_reopened = Resolved (Some Fail) ∧
  rec_round <$> performance_data demo_reopened = [1] ∧
  (∀ (i j : nat) b,
     buttons demo_reopened !! i ≫= (.!! j) = Some b → state b = normal) ∧
  let s' := run [(demo_later, Click 1 0)] demo_reopened in
  fst (dispatch demo_later (Click 1 0) demo_reopened) = inr tt ∧
  s' ≠ demo_reopened ∧
  phase s' = Resolved (Some Fail) ∧
  rec_round <$> performance_data s' = [1; 2] ∧
  rec_result <$> performance_data s' = [Fail; Fail].
Proof.
  split; [by vm_compute|]. split; [by vm_compute|].
  split; [by vm_compute|]. split; [by vm_compute|]. split.
  { intros [|[|i]] [|[|j]] b Hb; vm_compute in Hb;
      try discriminate; by injection Hb as <-. }
  cbv zeta. split; [by vm_compute|]. split; [|by vm_compute].
  intros Heq. apply (f_equal (λ s, length (performance_data s))) in Heq.
  vm_compute in Heq. discriminate.
Qed.

(** X21.  Input out of phase, as far as the code ignores it.  While the
    sequence is being displayed the handler ignores a selection: the
    state is unchanged and nothing is raised.  For a resolved round the
    handler has no guard of its own; [end_round] disables every button of
    the grid, and in the state it leaves a press on a cell does not reach
    the handler, so that the state is unchanged. *)
Theorem out_of_phase_input :
  (∀ w row col s,
     phase s = Displaying → on_block_click w row col s = (inr tt, s)) ∧
  (∀ w success s started c,
     grid_ok s → round_start_time s = Some started →
     phase s = AwaitingInput c →
     ∃ s', end_round w success s = (inr tt, s') ∧
           phase s' = Resolved (Some (if success then Success else Fail)) ∧
           ∀ w' i j, dispatch w' (Click i j) s' = (inr tt, s')).
Proof.
  split.
  - intros w row col s Hs%phase_displaying.
    by apply on_block_click_displaying.
  - intros w success s started c Hg Ht (Hshow & _ & _)%phase_awaiting.
    destruct (end_round_run w success s started Hg Ht) as (s' & Hrun & Hs').
    exists s'. split; [done|]. destruct Hs'. split.
    + apply phase_resolved. rewrite er_log0, last_snoc. simpl.
      by repeat split; try congruence.
    + intros w' i j. apply click_disabled. intros b.
      rewrite er_buttons0. apply configured_disabled.
Qed.

Lemma out_of_phase_input_witness :
  on_block_click demo_later 0 0 demo_start = (inr tt, demo_start) ∧
  ∃ s', end_round demo_later false demo_awaiting = (inr tt, s') ∧
        phase s' = Resolved (Some Fail) ∧
        ∀ w' i j, dispatch w' (Click i j) s' = (inr tt, s').
Proof.
  split.
  - exact (proj1 out_of_phase_input demo_later 0 0 demo_start eq_refl).
  - exact (proj2 out_of_phase_input demo_later false demo_awaiting 10%float 0
             demo_awaiting_grid_ok eq_refl eq_refl).
Defined.

(** ** [random.sample] *)

Lemma swap_remove_perm {A} (a : list A) (j : nat) x y :
  a !! j = Some x → a !! (length a - 1)%nat = Some y →
  x :: take (length a - 1) (<[j:=y]> a) ≡ₚ a.
Proof.
  intros Hj Hy. destruct a as [|z a'] using rev_ind; [done|]. clear IHa'.
  rewrite length_app in *. simpl in *.
  replace (length a' + 1 - 1)%nat with (length a') in * by lia.
  rewrite lookup_app_r, Nat.sub_diag in Hy by lia. injection Hy as ->.
  destruct (decide (j < length a')%nat) as [Hlt|Hge].
  - rewrite lookup_app_l in Hj by done.
    rewrite insert_app_l by done.
    rewrite take_app_length' by (by rewrite length_insert).
    rewrite insert_take_drop by done.
    rewrite <- (take_drop_middle a' j x Hj) at 3.
    rewrite <- app_assoc. simpl.
    rewrite (Permutation_app_comm (drop (S j) a') [y]). simpl.
    apply Permutation_middle.
  - assert (j = length a') as ->.
    { apply lookup_lt_Some in Hj. rewrite length_app in Hj. simpl in Hj. lia. }
    rewrite lookup_app_r, Nat.sub_diag in Hj by lia. injection Hj as ->.
    rewrite insert_app_r_alt, Nat.sub_diag by lia. simpl.
    rewrite take_app_length. apply Permutation_cons_append.
Qed.

Lemma sample_loop_spec {A} (rnd : nat → nat) (n : nat) :
  ∀ (todo i : nat) (pool : list A),
    length pool = n → (i + todo ≤ n)%nat → NoDup (take (n - i) pool) →
    length (sample_loop pool n rnd i todo) = todo ∧
    NoDup (sample_loop pool n rnd i todo) ∧
    sample_loop pool n rnd i todo ⊆ take (n - i) pool.
Proof.
  induction todo as [|todo IH]; intros i pool Hlen Hi Hnd; simpl.
  - split; [done|]. split; [constructor | apply list_subseteq_nil].
  - set (m := (n - i)%nat) in *. set (j := (rnd i `mod` m)%nat).
    assert (j < m)%nat as Hj by (apply Nat.mod_upper_bound; lia).
    destruct (lookup_lt_is_Some_2 pool j) as [x Hx]; [lia|].
    destruct (lookup_lt_is_Some_2 pool (m - 1)) as [y Hy]; [lia|].
    rewrite Hx, Hy.
    assert (length (take m pool) = m) as Hlm by (rewrite length_take; lia).
    assert (x :: take (m - 1) (<[j:=y]> pool) ≡ₚ take m pool) as Hperm.
    { replace (take (m - 1) (<[j:=y]> pool))
        with (take (length (take m pool) - 1) (<[j:=y]> (take m pool))).
      - apply swap_remove_perm.
        + by rewrite lookup_take_lt.
        + rewrite Hlm, lookup_take_lt by lia. done.
      - rewrite Hlm, <- take_insert_lt by done.
        rewrite take_take. f_equal. lia. }
    rewrite <- Hperm in Hnd. apply NoDup_cons in Hnd as [Hnotin Hnd'].
    destruct (IH (S i) (<[j:=y]> pool)) as (IH1 & IH2 & IH3).
    { by rewrite length_insert. }
    { lia. }
    { replace (n - S i)%nat with (m - 1)%nat by lia. done. }
    replace (n - S i)%nat with (m - 1)%nat in IH3 by lia.
    split; [simpl; lia|]. split.
    + apply NoDup_cons. split; [|done]. intros Hin. apply Hnotin. by apply IH3.
    + intros z Hz. rewrite <- Hperm. apply elem_of_cons in Hz as [->|Hz].
      * apply elem_of_cons. by left.
      * apply elem_of_cons. right. by apply IH3.
Qed.

Lemma random_sample_spec {A} (population : list A) k rnd :
  NoDup population → 0 ≤ k ≤ Z.of_nat (length population) →
  ∃ sample, random_sample population k rnd = inr sample ∧
            Z.of_nat (length sample) = k ∧ NoDup sample ∧
            sample ⊆ population.
Proof.
  intros Hnd Hk. unfold random_sample. rewrite decide_True by done.
  eexists. split; [reflexivity|].
  destruct (sample_loop_spec rnd (length population) (Z.to_nat k) 0 population)
    as (H1 & H2 & H3); [done | lia | |].
  { by rewrite Nat.sub_0_r, firstn_all. }
  rewrite Nat.sub_0_r, firstn_all in H3. split; [lia|]. done.
Qed.

Lemma random_sample_raises {A} (population : list A) k rnd :
  ¬ (0 ≤ k ≤ Z.of_nat (length population)) →
  random_sample population k rnd = inl ValueError.
Proof. intros Hk. unfold random_sample. by rewrite decide_False. Qed.

(** ** The positions of the grid *)

Lemma all_positions_elem gs (r c : Z) :
  (r, c) ∈ (r ← range gs; c ← range gs; [(r, c)]) ↔
  (0 ≤ r < gs ∧ 0 ≤ c < gs).
Proof.
  unfold range. rewrite list_elem_of_bind. split.
  - intros (r' & (c' & Hin & Hc)%list_elem_of_bind & Hr).
    apply list_elem_of_singleton in Hin as [= -> ->].
    apply elem_of_seqZ in Hr, Hc. lia.
  - intros [Hr Hc]. exists r. split; [|apply elem_of_seqZ; lia].
    apply list_elem_of_bind. exists c. split; [|apply elem_of_seqZ; lia].
    by apply list_elem_of_singleton.
Qed.

Lemma all_positions_NoDup gs :
  NoDup (r ← range gs; c ← range gs; [(r, c)] : list Position).
Proof.
  unfold range. apply NoDup_bind; [| |apply NoDup_seqZ].
  - intros r1 r2 [r c] _ _ (c1 & Hin1 & _)%list_elem_of_bind
      (c2 & Hin2 & _)%list_elem_of_bind.
    apply list_elem_of_singleton in Hin1, Hin2. congruence.
  - intros r _. apply NoDup_bind; [| |apply NoDup_seqZ].
    + intros c1 c2 p _ _ Hin1 Hin2.
      apply list_elem_of_singleton in Hin1, Hin2. congruence.
    + intros c _. apply NoDup_singleton.
Qed.

Lemma bind_length_const {A B} (f : A → list B) (l : list A) (n : nat) :
  (∀ x, length (f x) = n) → length (l ≫= f) = (length l * n)%nat.
Proof.
  intros Hf. induction l as [|x l IH]; [done|].
  rewrite bind_cons, length_app, Hf, IH. simpl. lia.
Qed.

Lemma all_positions_length gs :
  0 ≤ gs →
  Z.of_nat (length (r ← range gs; c ← range gs; [(r, c)] : list Position))
  = gs * gs.
Proof.
  intros Hgs. unfold range.
  rewrite (bind_length_const _ _ (Z.to_nat gs)).
  - rewrite length_seqZ. lia.
  - intros r. rewrite (bind_length_const _ _ 1%nat) by done.
    rewrite length_seqZ. lia.
Qed.

(** ** Showing the sequence *)

Lemma grid_lookup s (r c : Z) :
  grid_ok s → 0 ≤ r < grid_size s → 0 ≤ c < grid_size s →
  ∃ row_buttons b,
    buttons s !! Z.to_nat r = Some row_buttons ∧
    row_buttons !! Z.to_nat c = Some b.
Proof.
  intros [Hlen Hrows] Hr Hc.
  destruct (lookup_lt_is_Some_2 (buttons s) (Z.to_nat r)) as [rb Hrb]; [lia|].
  pose proof (Forall_lookup_1 _ _ _ _ Hrows Hrb) as Hrbl. simpl in Hrbl.
  destruct (lookup_lt_is_Some_2 rb (Z.to_nat c)) as [b Hb]; [lia|].
  eauto.
Qed.

Lemma configure_button_in_grid s (r c : Z) col st :
  grid_ok s → 0 ≤ r < grid_size s → 0 ≤ c < grid_size s →
  ∃ row_buttons b,
    buttons s !! Z.to_nat r = Some row_buttons ∧
    row_buttons !! Z.to_nat c = Some b ∧
    configure_button r c col st s
    = (inr tt,
       set_buttons (<[Z.to_nat r := <[Z.to_nat c := configure col st b]>
                                      row_buttons]> (buttons s)) s).
Proof.
  intros Hg Hr Hc. destruct (grid_lookup s r c) as (rb & b & Hrb & Hb); [done..|].
  exists rb, b. split; [done|]. split; [done|].
  rewrite <- (Z2Nat.id r) at 1 by lia. rewrite <- (Z2Nat.id c) at 1 by lia.
  by apply configure_button_ok.
Qed.

Lemma finish_showing_sequence_run s :
  grid_ok s →
  finish_showing_sequence s
  = (inr tt,
     set_show_pattern_button normal
       (set_message_label MsgClick
          (set_buttons (fmap (M:=list) (configure None (Some normal))
                          <$> buttons s)
             (set_showing_sequence false s)))).
Proof. intros Hg. unfold finish_showing_sequence. by repeat mstep. Qed.

Lemma show_sequence_step_first s r c rest :
  grid_ok s → sequence_in_grid s → correct_sequence s = (r, c) :: rest →
  ∃ row_buttons b,
    buttons s !! Z.to_nat r = Some row_buttons ∧
    row_buttons !! Z.to_nat c = Some b ∧
    show_sequence_step 0 s
    = (inr tt,
       set_timers (timers s ++ [(1000, CbHide 0)])
         (set_buttons
            (<[Z.to_nat r := <[Z.to_nat c := configure (Some highlight_color)
                                               None b]> row_buttons]>
               (buttons s)) s)).
Proof.
  intros Hg Hin Hseq.
  destruct (Hin r c) as [Hr Hc]; [rewrite Hseq; by left|].
  destruct (configure_button_in_grid s r c (Some highlight_color) None)
    as (rb & b & Hrb & Hb & Hrun); [done..|].
  exists rb, b. split; [done|]. split; [done|].
  unfold show_sequence_step. rewrite bind_get, Hseq.
  rewrite decide_False by (simpl; lia). unfold py_index.
  rewrite decide_True by (simpl; lia). simpl.
  erewrite bind_ok by exact Hrun. reflexivity.
Qed.

Lemma show_sequence_step_0_ok s :
  grid_ok s → sequence_in_grid s →
  ∃ s', show_sequence_step 0 s = (inr tt, s') ∧
        correct_sequence s' = correct_sequence s ∧
        sequence_index s' = sequence_index s ∧
        replay_count s' = replay_count s ∧
        grid_size s' = grid_size s.
Proof.
  intros Hg Hin. destruct (correct_sequence s) as [|[r c] rest] eqn:Hseq.
  - unfold show_sequence_step. rewrite bind_get, Hseq.
    rewrite decide_True by (simpl; lia).
    rewrite finish_showing_sequence_run by done. eexists. split; [done|].
    by cbn.
  - destruct (show_sequence_step_first s r c rest) as (rb & b & _ & _ & ->);
      [done..|].
    eexists. split; [done|]. by cbn.
Qed.

(** ** [start_new_round] *)

(** C3.  The claim fails for lengths below zero: with a 2 by 2 grid,
    level 1 and [initial_sequence_length = -1] the length asked of
    [random.sample] is [min(4, -1) = -1], the call raises [ValueError] and
    no sequence is generated. *)
Lemma negative_length_raises :
  Z.min (2 * 2) (-1 + (1 - 1)) = -1 ∧
  fst (init demo_world 2 (-1) 1) = inl ValueError ∧
  correct_sequence (snd (init demo_world 2 (-1) 1)) = [].
Proof. by vm_compute. Qed.

(** C3, as the code has it.  When the grid size is not negative and
    [initial_sequence_length + level - 1] is not negative, a new round
    gets a sequence of pairwise distinct positions, of length
    [min(grid_size², initial_sequence_length + level - 1)], all of them
    cells of the grid; the cursor and the replay count start from 0. *)
Theorem start_new_round_sequence w s :
  grid_ok s →
  0 ≤ grid_size s →
  0 ≤ initial_sequence_length s + (level s - 1) →
  ∃ s', start_new_round w s = (inr tt, s') ∧
        NoDup (correct_sequence s') ∧
        Z.of_nat (length (correct_sequence s'))
          = Z.min (grid_size s * grid_size s)
                  (initial_sequence_length s + (level s - 1)) ∧
        (∀ r c, (r, c) ∈ correct_sequence s' →
                0 ≤ r < grid_size s ∧ 0 ≤ c < grid_size s) ∧
        sequence_index s' = 0 ∧ replay_count s' = 0.
Proof.
  intros Hg Hgs Hlen. unfold start_new_round. repeat mstep. cbn.
  match goal with |- context [random_sample ?p ?k ?r] =>
    destruct (random_sample_spec p k r) as (sample & -> & Hl & Hnd & Hsub)
  end.
  { apply all_positions_NoDup. }
  { rewrite all_positions_length by done. lia. }
  mstep.
  match goal with |- ∃ s', show_sequence_step 0 ?S = _ ∧ _ =>
    destruct (show_sequence_step_0_ok S) as (s' & -> & Hseq & Hidx & Hrep & _)
  end.
  { grid_tac. }
  { intros r c Hin. cbn in *. by apply all_positions_elem, Hsub. }
  exists s'. split; [done|]. rewrite Hseq, Hidx, Hrep. cbn.
  repeat split; try done; apply (all_positions_elem (grid_size s) r c), Hsub, H.
Qed.

Lemma start_new_round_sequence_witness :
  ∃ s', start_new_round demo_world demo_awaiting = (inr tt, s') ∧
        NoDup (correct_sequence s') ∧
        Z.of_nat (length (correct_sequence s')) = Z.min (2 * 2) (3 + (1 - 1)) ∧
        (∀ r c, (r, c) ∈ correct_sequence s' → 0 ≤ r < 2 ∧ 0 ≤ c < 2) ∧
        sequence_index s' = 0 ∧ replay_count s' = 0.
Proof.
  apply (start_new_round_sequence demo_world demo_awaiting
           demo_awaiting_grid_ok); vm_compute; discriminate.
Defined.

(** ** Runs of successes *)

Lemma leading_run_replicate c os :
  leading_run (replicate c true ++ os) = (c + leading_run os)%nat.
Proof. induction c as [|c IH]; simpl; [done | by rewrite IH]. Qed.

Lemma leading_run_app_false a b :
  leading_run (a ++ false :: b) = leading_run a.
Proof.
  induction a as [|[] a IH]; simpl; [done | by rewrite IH | done].
Qed.

Lemma leading_run_le_max_run os : (leading_run os ≤ max_run os)%nat.
Proof. destruct os; simpl; lia. Qed.

Lemma max_run_replicate_false c os :
  max_run (replicate c true ++ false :: os) = Nat.max c (max_run os).
Proof.
  induction c as [|c IH]; [done|].
  change (replicate (S c) true ++ false :: os)
    with (true :: (replicate c true ++ false :: os)).
  cbn [max_run leading_run]. rewrite IH, leading_run_replicate. simpl. lia.
Qed.

Lemma trailing_run_app_false a b :
  trailing_run (a ++ false :: b) = trailing_run b.
Proof.
  unfold trailing_run. rewrite reverse_app, reverse_cons, <- app_assoc.
  apply leading_run_app_false.
Qed.

Lemma trailing_run_replicate c : trailing_run (replicate c true) = c.
Proof.
  unfold trailing_run. rewrite reverse_replicate.
  rewrite <- (app_nil_r (replicate c true)), leading_run_replicate. simpl. lia.
Qed.

Lemma max_run_replicate c : max_run (replicate c true) = c.
Proof.
  induction c as [|c IH]; [done|]. cbn [replicate max_run leading_run].
  rewrite IH, <- (app_nil_r (replicate c true)), leading_run_replicate.
  simpl. lia.
Qed.

(** [max_run] is the length of a block of consecutive successes of the
    list, and no such block is longer. *)
Lemma max_run_spec os :
  (∃ l1 l2, os = l1 ++ replicate (max_run os) true ++ l2) ∧
  (∀ n l1 l2, os = l1 ++ replicate n true ++ l2 → (n ≤ max_run os)%nat).
Proof.
  split.
  - induction os as [|o os IH]; [by exists [], []|].
    cbn [max_run]. destruct (Nat.max_spec (leading_run (o :: os)) (max_run os))
      as [[_ ->]|[_ ->]].
    + destruct IH as (l1 & l2 & Hos). exists (o :: l1), l2. simpl. by f_equal.
    + exists [].
      assert (∀ l, ∃ l2, l = replicate (leading_run l) true ++ l2) as Hsplit.
      { induction l as [|[] l IHl]; [by exists [] | | by eexists].
        destruct IHl as [l2 Hl2]. exists l2. simpl. by f_equal. }
      destruct (Hsplit (o :: os)) as [l2 Hl2]. by exists l2.
  - intros n l1. revert os. induction l1 as [|a l1 IH]; intros os l2 ->.
    + simpl. etrans; [|apply leading_run_le_max_run].
      rewrite leading_run_replicate. lia.
    + simpl. specialize (IH _ l2 eq_refl). lia.
Qed.

(** ** Streaks, levels and round numbers over successive rounds *)

Lemma finalize_ready s x :
  ready s →
  ∃ started, EndRound x.1 x.2 started s (finalize s x) ∧ ready (finalize s x).
Proof.
  intros [Hg [started Ht]].
  destruct (end_round_run x.1 x.2 s started Hg Ht) as (s' & Hrun & Hs').
  exists started. unfold finalize. rewrite Hrun. simpl. split; [done|].
  destruct Hs'. split.
  - by eapply grid_ok_fmap.
  - rewrite er_started0, Ht. by eexists.
Qed.

Lemma finalize_all_ready xs s : ready s → ready (finalize_all xs s).
Proof.
  revert s. induction xs as [|x xs IH]; intros s Hr; [done|].
  simpl. apply IH. by destruct (finalize_ready s x Hr) as (? & _ & ?).
Qed.

Lemma replicate_true_cons c (os : list bool) :
  replicate c true ++ true :: os = replicate (S c) true ++ os.
Proof. by rewrite (cons_middle true), app_assoc, <- replicate_S_end. Qed.

Lemma finalize_all_streaks xs : ∀ s (c : nat),
  ready s → current_streak s = Z.of_nat c → Z.of_nat c ≤ longest_streak s →
  longest_streak (finalize_all xs s)
    = Z.max (longest_streak s)
            (Z.of_nat (max_run (replicate c true ++ xs.*2))) ∧
  current_streak (finalize_all xs s)
    = Z.of_nat (trailing_run (replicate c true ++ xs.*2)) ∧
  current_streak (finalize_all xs s) ≤ longest_streak (finalize_all xs s).
Proof.
  induction xs as [|[w b] xs IH]; intros s c Hr Hc Hl.
  - simpl. rewrite app_nil_r, max_run_replicate, trailing_run_replicate. lia.
  - destruct (finalize_ready s (w, b) Hr) as (started & Hs' & Hr').
    destruct Hs' as [Hcur Hlong]. rewrite fmap_cons.
    change (finalize_all ((w, b) :: xs) s)
      with (finalize_all xs (finalize s (w, b))).
    cbn [fst snd] in *. destruct b.
    + destruct (IH (finalize s (w, true)) (S c)) as (IH1 & IH2 & IH3);
        [done | lia | lia |].
      rewrite replicate_true_cons, IH1, IH2, Hlong.
      pose proof (leading_run_le_max_run (replicate (S c) true ++ xs.*2)) as Hle.
      rewrite leading_run_replicate in Hle. repeat split; lia.
    + destruct (IH (finalize s (w, false)) 0%nat) as (IH1 & IH2 & IH3);
        [done | lia | lia |].
      rewrite max_run_replicate_false, trailing_run_app_false.
      simpl in IH1, IH2. rewrite IH1, IH2, Hlong. repeat split; lia.
Qed.

(** C4.  After the outcomes of a game's rounds have been processed by
    [end_round], from the fresh streaks of [__init__], [longest_streak] is
    the length of the longest block of consecutive successes among them
    and [current_streak] the number of successes they end with, so that
    [current_streak ≤ longest_streak]; one more round never lowers
    [longest_streak]. *)
Theorem longest_streak_is_max_run xs s :
  ready s → current_streak s = 0 → longest_streak s = 0 →
  longest_streak (finalize_all xs s) = Z.of_nat (max_run xs.*2) ∧
  current_streak (finalize_all xs s) = Z.of_nat (trailing_run xs.*2) ∧
  current_streak (finalize_all xs s) ≤ longest_streak (finalize_all xs s) ∧
  ∀ x, longest_streak (finalize_all xs s)
       ≤ longest_streak (finalize (finalize_all xs s) x).
Proof.
  intros Hr Hc Hl.
  destruct (finalize_all_streaks xs s 0%nat) as (H1 & H2 & H3); [done|lia..|].
  simpl in H1, H2. rewrite H1, H2, Hl.
  split; [lia|]. split; [done|]. split.
  - rewrite H1, H2, Hl in H3. lia.
  - intros x.
    destruct (finalize_ready (finalize_all xs s) x (finalize_all_ready xs s Hr))
      as (started & [_ Hlong] & _).
    rewrite Hlong, H1. destruct x.2; lia.
Qed.

Lemma demo_awaiting_ready : ready demo_awaiting.
Proof. split; [exact demo_awaiting_grid_ok | by eexists]. Defined.

Lemma longest_streak_is_max_run_witness :
  let xs := [(demo_later, true); (demo_later, true); (demo_later, false);
             (demo_later, true)] in
  longest_streak (finalize_all xs demo_awaiting) = Z.of_nat (max_run xs.*2) ∧
  current_streak (finalize_all xs demo_awaiting)
    = Z.of_nat (trailing_run xs.*2) ∧
  current_streak (finalize_all xs demo_awaiting)
    ≤ longest_streak (finalize_all xs demo_awaiting) ∧
  ∀ x, longest_streak (finalize_all xs demo_awaiting)
       ≤ longest_streak (finalize (finalize_all xs demo_awaiting) x).
Proof.
  exact (longest_streak_is_max_run _ demo_awaiting demo_awaiting_ready
           eq_refl eq_refl).
Defined.

(** ** Properties kept by every method *)

Section Keeps.
Context (P : State → Prop).

Lemma keeps_ret {A} (a : A) : keeps P (ret a).
Proof. by intros s. Qed.

Lemma keeps_raise {A} e : keeps P (raise (A:=A) e).
Proof. by intros s. Qed.

Lemma keeps_get : keeps P get.
Proof. by intros s. Qed.

Lemma keeps_gets {A} (f : State → A) : keeps P (gets f).
Proof. by intros s. Qed.

Lemma keeps_modify f : (∀ s, P s → P (f s)) → keeps P (modify f).
Proof. intros Hf s. apply Hf. Qed.

Lemma keeps_bind {A B} (m : M A) (k : A → M B) :
  keeps P m → (∀ a, keeps P (k a)) → keeps P (bind m k).
Proof.
  intros Hm Hk s Hs. unfold bind. specialize (Hm s Hs).
  destruct (m s) as [[e|a] s1]; [done|]. by apply Hk.
Qed.

(** The continuation may use what was read off the state. *)
Lemma keeps_bind_get {B} (k : State → M B) :
  (∀ s0, P s0 → keeps P (k s0)) → keeps P (bind get k).
Proof. intros Hk s Hs. rewrite bind_get. by apply Hk. Qed.

Lemma keeps_for_each {A} (xs : list A) body :
  (∀ x, keeps P (body x)) → keeps P (for_each xs body).
Proof.
  intros Hb. induction xs as [|x xs IH]; [apply keeps_ret|].
  simpl. apply keeps_bind; [apply Hb | by intros _].
Qed.

Lemma keeps_when c m : keeps P m → keeps P (when c m).
Proof. intros Hm. destruct c; [done | apply keeps_ret]. Qed.

Context (Hblind : widget_blind P).

Lemma keeps_configure_button row col c st :
  keeps P (configure_button row col c st).
Proof.
  unfold configure_button. apply keeps_bind_get. intros s0 _.
  destruct (py_slot _ _); [|apply keeps_raise].
  destruct (_ ≫= _); [|apply keeps_raise].
  apply keeps_modify. apply Hblind.
Qed.

Lemma keeps_after ms cb : keeps P (after ms cb).
Proof. apply keeps_modify. intros s. apply Hblind. Qed.

Lemma keeps_grid_loop c st :
  keeps P (gs <- gets grid_size ;;
           for_each (range gs) (λ row,
             gs' <- gets grid_size ;;
             for_each (range gs') (λ col, configure_button row col c st))).
Proof.
  apply keeps_bind; [apply keeps_gets|]. intros gs.
  apply keeps_for_each. intros row.
  apply keeps_bind; [apply keeps_gets|]. intros gs'.
  apply keeps_for_each. intros col. apply keeps_configure_button.
Qed.
End Keeps.

(** One construct of a method body, for a property that is kept
    statement by statement. *)
Ltac keeps_step :=
  lazymatch goal with
  | |- keeps _ (bind get _) => apply keeps_bind_get; intros ? ?
  | |- keeps _ (bind _ _) => apply keeps_bind; [|intros ?]
  | |- keeps _ (ret _) => apply keeps_ret
  | |- keeps _ (raise _) => apply keeps_raise
  | |- keeps _ get => apply keeps_get
  | |- keeps _ (gets _) => apply keeps_gets
  | |- keeps _ (modify _) => apply keeps_modify
  | |- keeps _ (for_each _ _) => apply keeps_for_each; intros ?
  | |- keeps _ (when _ _) => apply keeps_when
  | |- keeps _ (configure_button _ _ _ _) => apply keeps_configure_button
  | |- keeps _ (after _ _) => apply keeps_after
  | |- keeps _ (match ?x with _ => _ end) => destruct x
  end.

Ltac keeps_tac :=
  repeat keeps_step;
  try (split; intros; assumption);
  try (intros; cbn in *; first [assumption | lia]).

Lemma keeps_run (P : State → Prop) :
  (∀ w e, keeps P (dispatch w e)) → ∀ evs s, P s → P (run evs s).
Proof.
  intros Hd evs. induction evs as [|[w e] evs IH]; intros s Hs; [done|].
  simpl. apply IH. by apply Hd.
Qed.

(** ** The level *)

Lemma level_keeps_dispatch w e : keeps (λ s, 1 ≤ level s) (dispatch w e).
Proof.
  unfold dispatch, on_block_click, start_new_round, show_pattern_again,
    run_callback, end_round, show_sequence_step, hide_sequence_step,
    finish_showing_sequence.
  keeps_tac.
Qed.

(** C5.  A round ended with a success moves the level from [L] to
    [L + 1], a round ended with a failure moves it to 1; started at 1 or
    more the level stays at 1 or more, whatever the main loop delivers. *)
Theorem level_transition w s L :
  ready s → level s = L → 1 ≤ L →
  level (finalize s (w, true)) = L + 1 ∧
  level (finalize s (w, false)) = 1 ∧
  ∀ evs, 1 ≤ level (run evs s).
Proof.
  intros Hr <- HL.
  destruct (finalize_ready s (w, true) Hr) as (? & [] & _).
  destruct (finalize_ready s (w, false) Hr) as (? & [] & _).
  split; [done|]. split; [done|].
  intros evs. by apply (keeps_run (λ s, 1 ≤ level s) level_keeps_dispatch).
Qed.

Lemma level_transition_witness :
  level (finalize demo_awaiting (demo_later, true)) = 1 + 1 ∧
  level (finalize demo_awaiting (demo_later, false)) = 1 ∧
  ∀ evs, 1 ≤ level (run evs demo_awaiting).
Proof.
  apply (level_transition demo_later demo_awaiting 1 demo_awaiting_ready
           eq_refl).
  lia.
Defined.

(** ** The round numbers of the log *)

Lemma finalize_all_rounds xs : ∀ s,
  ready s →
  rec_round <$> performance_data (finalize_all xs s)
  = (rec_round <$> performance_data s)
      ++ seqZ (Z.of_nat (length (performance_data s)) + 1)
              (Z.of_nat (length xs)).
Proof.
  induction xs as [|x xs IH]; intros s Hr.
  - simpl. by rewrite app_nil_r.
  - destruct (finalize_ready s x Hr) as (started & Hs' & Hr').
    change (finalize_all (x :: xs) s) with (finalize_all xs (finalize s x)).
    rewrite IH by done. destruct Hs' as [_ _ Hlog]. rewrite Hlog.
    rewrite fmap_app, length_app, <- app_assoc. f_equal. simpl.
    rewrite (seqZ_cons _ (Z.of_nat (S (length xs)))) by lia.
    f_equal. f_equal; lia.
Qed.

(** C6.  A call of [end_round] appends one record to the log; its round
    number is the length the log had plus 1 and its level is the level
    before the update.  Hence from an empty log, [N] rounds ended one after
    the other leave the records numbered 1, ..., [N] in this order. *)
Theorem log_numbering s :
  ready s →
  (∀ w success, ∃ s' r,
     end_round w success s = (inr tt, s') ∧
     performance_data s' = performance_data s ++ [r] ∧
     rec_round r = Z.of_nat (length (performance_data s)) + 1 ∧
     rec_level r = level s ∧
     level s' = if success then level s + 1 else 1) ∧
  (∀ xs, performance_data s = [] →
         rec_round <$> performance_data (finalize_all xs s)
         = seqZ 1 (Z.of_nat (length xs)) ∧
         length (performance_data (finalize_all xs s)) = length xs).
Proof.
  intros Hr. split.
  - intros w success. destruct Hr as [Hg [started Ht]].
    destruct (end_round_run w success s started Hg Ht) as (s' & Hrun & Hs').
    destruct Hs'. eexists s', _. by repeat split.
  - intros xs Hlog.
    pose proof (finalize_all_rounds xs s Hr) as Hn. rewrite Hlog in Hn.
    simpl in Hn. split; [done|].
    apply (f_equal length) in Hn. rewrite length_fmap, length_seqZ in Hn. lia.
Qed.

Lemma log_numbering_witness :
  (∀ w success, ∃ s' r,
     end_round w success demo_awaiting = (inr tt, s') ∧
     performance_data s' = performance_data demo_awaiting ++ [r] ∧
     rec_round r = Z.of_nat (length (performance_data demo_awaiting)) + 1 ∧
     rec_level r = level demo_awaiting ∧
     level s' = if success then level demo_awaiting + 1 else 1) ∧
  (∀ xs, performance_data demo_awaiting = [] →
         rec_round <$> performance_data (finalize_all xs demo_awaiting)
         = seqZ 1 (Z.of_nat (length xs)) ∧
         length (performance_data (finalize_all xs demo_awaiting)) = length xs).
Proof. exact (log_numbering demo_awaiting demo_awaiting_ready). Defined.

(** ** [show_pattern_again] *)

Lemma demo_awaiting_in_grid : sequence_in_grid demo_awaiting.
Proof.
  intros r c Hin. simpl in Hin.
  repeat (apply elem_of_cons in Hin as [[= -> ->]|Hin]; [simpl; lia|]).
  by apply not_elem_of_nil in Hin.
Defined.

(** ** Dicts *)

Lemma dict_get_set {V} (d : Dict V) k v k' :
  dict_get (dict_set k v d) k' = if decide (k = k') then Some v else dict_get d k'.
Proof.
  induction d as [|[k0 v0] d IH]; simpl.
  - by destruct (decide (k = k')).
  - destruct (decide (k0 = k)) as [->|Hne]; simpl.
    + by destruct (decide (k = k')).
    + rewrite IH. destruct (decide (k0 = k')) as [->|]; [|done].
      by rewrite decide_False by congruence.
Qed.

Lemma dict_get_update {V} (f : V → V) (d : Dict V) k k' :
  dict_get (dict_update f k d) k'
  = if decide (k = k') then f <$> dict_get d k' else dict_get d k'.
Proof.
  induction d as [|[k0 v0] d IH]; simpl.
  - by destruct (decide (k = k')).
  - destruct (decide (k0 = k)) as [->|Hne]; simpl.
    + by destruct (decide (k = k')).
    + rewrite IH. destruct (decide (k0 = k')) as [->|]; [|done].
      by rewrite decide_False by congruence.
Qed.

Lemma dict_get_fmap {V W} (f : V → W) (d : Dict V) k :
  dict_get ((λ '(k0, v), (k0, f v)) <$> d) k = f <$> dict_get d k.
Proof.
  induction d as [|[k0 v0] d IH]; [done|].
  rewrite fmap_cons. simpl. by destruct (decide (k0 = k)).
Qed.

Lemma dict_keys_set {V} (d : Dict V) k v :
  (dict_set k v d).*1
  = match dict_get d k with Some _ => d.*1 | None => d.*1 ++ [k] end.
Proof.
  induction d as [|[k0 v0] d IH]; [done|]. simpl.
  destruct (decide (k0 = k)) as [->|Hne]; [done|].
  rewrite fmap_cons, IH. by destruct (dict_get d k).
Qed.

Lemma dict_keys_update {V} (f : V → V) (d : Dict V) k :
  (dict_update f k d).*1 = d.*1.
Proof.
  induction d as [|[k0 v0] d IH]; [done|]. simpl.
  destruct (decide (k0 = k)); [done|]. by rewrite !fmap_cons, IH.
Qed.

Lemma dict_get_None {V} (d : Dict V) k : dict_get d k = None ↔ k ∉ d.*1.
Proof.
  induction d as [|[k0 v0] d IH]; simpl.
  - split; [intros _; apply not_elem_of_nil | done].
  - rewrite not_elem_of_cons.
    destruct (decide (k0 = k)) as [->|Hne]; [intuition congruence|].
    rewrite IH. intuition congruence.
Qed.

(** ** The first loop of the summaries *)

Lemma count_record_get key record d k :
  dict_get (count_record key record d) k
  = if decide (key = k)
    then Some (tally record (default (mkStats 0 0 0 0%float None)
                                     (dict_get d key)))
    else dict_get d k.
Proof.
  unfold count_record, tally.
  destruct (decide (key = k)) as [<-|Hne].
  - destruct (dict_get d key) as [st|] eqn:Hget;
      destruct (rec_result record);
      rewrite ?dict_get_update, ?dict_get_set, ?decide_True, ?Hget by done;
      done.
  - destruct (dict_get d key) as [st|] eqn:Hget;
      destruct (rec_result record);
      rewrite ?dict_get_update, ?dict_get_set, ?decide_False by done; done.
Qed.

Lemma tally_fold group : ∀ st,
  foldl (λ o r, Some (tally r (default (mkStats 0 0 0 0%float None) o)))
        (Some st) group
  = Some {|
      rounds := rounds st + Z.of_nat (length group);
      success := success st + count_result Success group;
      fail := fail st + count_result Fail group;
      total_time :=
        foldl (λ acc r, PrimFloat.add acc (rec_time r)) (total_time st) group;
      avg_time := avg_time st
    |}.
Proof.
  unfold count_result.
  induction group as [|r group IH]; intros st.
  - simpl. destruct st. simpl. f_equal. f_equal; lia.
  - cbn [foldl]. simpl default. rewrite IH. f_equal.
    unfold tally. rewrite !filter_cons.
    destruct (rec_result r); simpl;
      repeat case_decide; try congruence; simpl; f_equal; lia.
Qed.

Lemma summary_fold key log : ∀ d k,
  dict_get (foldl (λ d r, count_record (key r) r d) d log) k
  = foldl (λ o r, Some (tally r (default (mkStats 0 0 0 0%float None) o)))
          (dict_get d k) (keyed key k log).
Proof.
  unfold keyed. induction log as [|r log IH]; intros d k; [done|].
  cbn [foldl]. rewrite IH, count_record_get, filter_cons.
  by destruct (decide (key r = k)) as [<-|Hne].
Qed.

Lemma Stats_eq a b c d e a' b' c' d' e' :
  a = a' → b = b' → c = c' → d = d' → e = e' →
  mkStats a b c d e = mkStats a' b' c' d' e'.
Proof. by intros -> -> -> -> ->. Qed.

Lemma tally_fold_None r group :
  foldl (λ o r, Some (tally r (default (mkStats 0 0 0 0%float None) o)))
        None (r :: group)
  = Some {| rounds := Z.of_nat (length (r :: group));
            success := count_result Success (r :: group);
            fail := count_result Fail (r :: group);
            total_time := time_sum (r :: group);
            avg_time := None |}.
Proof.
  cbn [foldl]. simpl default. rewrite tally_fold. f_equal.
  unfold tally, count_result, time_sum. rewrite !filter_cons.
  destruct (rec_result r); simpl; repeat case_decide; try congruence;
    apply Stats_eq; simpl; try done; lia.
Qed.

(** The entry of a summary for key [k]: none when no record has the key,
    else the counts and the average of the records that have it. *)
Lemma summary_get key log k :
  dict_get ((λ '(k0, stats), (k0, average stats))
              <$> foldl (λ d r, count_record (key r) r d) [] log) k
  = match keyed key k log with
    | [] => None
    | group => Some (summary_of group)
    end.
Proof.
  rewrite dict_get_fmap, summary_fold. simpl dict_get.
  destruct (keyed key k log) as [|r group] eqn:Hk; [done|].
  rewrite tally_fold_None. reflexivity.
Qed.

(** ** Dates as text *)

Lemma digit_inj a b : digit a = digit b → a `mod` 10 = b `mod` 10.
Proof.
  unfold digit. intros H. apply (f_equal nat_of_ascii) in H.
  pose proof (Z.mod_pos_bound a 10). pose proof (Z.mod_pos_bound b 10).
  rewrite !nat_ascii_embedding in H by lia. lia.
Qed.

Lemma pad2_inj n m rest rest' :
  0 ≤ n < 100 → 0 ≤ m < 100 →
  pad2 n rest = pad2 m rest' → n = m ∧ rest = rest'.
Proof.
  unfold pad2. intros Hn Hm [= H1%digit_inj H2%digit_inj ->].
  split; [|done]. revert H1 H2. Z.div_mod_to_equations. lia.
Qed.

Lemma pad4_inj n m rest rest' :
  0 ≤ n < 10000 → 0 ≤ m < 10000 →
  pad4 n rest = pad4 m rest' → n = m ∧ rest = rest'.
Proof.
  unfold pad4, pad2.
  intros Hn Hm [= H1%digit_inj H2%digit_inj H3%digit_inj H4%digit_inj ->].
  split; [|done]. revert H1 H2 H3 H4. Z.div_mod_to_equations. lia.
Qed.

(** Two dates are written the same by [isoformat] only when they are the
    same date. *)
Lemma isoformat_inj d d' :
  valid_date d → valid_date d' → isoformat d = isoformat d' → d = d'.
Proof.
  destruct d as [y m a], d' as [y' m' a'].
  unfold valid_date, isoformat. cbn [year month day].
  intros (Hy & Hm & Ha) (Hy' & Hm' & Ha') Heq.
  apply pad4_inj in Heq as [-> Heq]; [|lia..].
  assert (pad2 m (String "-" (pad2 a "")) = pad2 m' (String "-" (pad2 a' "")))
    as Heq2
    by exact (f_equal (λ s, match s with String _ t => t | _ => s end) Heq).
  apply pad2_inj in Heq2 as [-> Heq2]; [|lia..].
  assert (pad2 a "" = pad2 a' "") as Heq3
    by exact (f_equal (λ s, match s with String _ t => t | _ => s end) Heq2).
  by apply pad2_inj in Heq3 as [-> _]; [|lia..].
Qed.

Lemma keyed_isoformat log d :
  Forall (λ r, valid_date (rec_date r)) log → valid_date d →
  keyed (λ r, isoformat (rec_date r)) (isoformat d) log = dated d log.
Proof.
  intros Hlog Hd. unfold keyed, dated.
  induction Hlog as [|r log Hr _ IH]; [done|].
  rewrite !filter_cons, IH.
  destruct (decide (rec_date r = d)) as [->|Hne].
  - by rewrite decide_True.
  - rewrite decide_False; [done|]. intros Heq. by apply Hne, isoformat_inj.
Qed.

(** ** The summaries *)

(** C8.  The daily summary has an entry exactly for the dates of the log;
    the entry of a date holds the count of the records of that date, the
    counts of successes and failures among them, and their total time
    divided by their count.  The monthly summary holds the same for the
    records of each [month_key].  Three records of one date with times 1.0,
    2.0, 3.0, two of them successes, give rounds 3, success 2, fail 1 and
    average 2.0. *)
Theorem summaries_by_key :
  (∀ log d,
     Forall (λ r, valid_date (rec_date r)) log → valid_date d →
     dict_get (_compute_daily_stats log) (isoformat d)
     = match dated d log with
       | [] => None
       | group => Some (summary_of group)
       end) ∧
  (∀ log k,
     dict_get (_compute_monthly_stats log) k
     = match keyed rec_month_key k log with
       | [] => None
       | group => Some (summary_of group)
       end) ∧
  (∀ r1 r2 r3 d,
     valid_date d →
     rec_date r1 = d → rec_date r2 = d → rec_date r3 = d →
     rec_time r1 = 1%float → rec_time r2 = 2%float → rec_time r3 = 3%float →
     count_result Success [r1; r2; r3] = 2 →
     dict_get (_compute_daily_stats [r1; r2; r3]) (isoformat d)
     = Some {| rounds := 3; success := 2; fail := 1; total_time := 6%float;
               avg_time := Some (PyFloat 2%float) |}).
Proof.
  assert (∀ log d,
     Forall (λ r, valid_date (rec_date r)) log → valid_date d →
     dict_get (_compute_daily_stats log) (isoformat d)
     = match dated d log with
       | [] => None
       | group => Some (summary_of group)
       end) as Hdaily.
  { intros log d Hlog Hd. unfold _compute_daily_stats.
    by rewrite (summary_get (λ r, isoformat (rec_date r))), keyed_isoformat. }
  split; [done|]. split.
  - intros log k. unfold _compute_monthly_stats.
    by rewrite (summary_get rec_month_key).
  - intros r1 r2 r3 d Hd H1 H2 H3 T1 T2 T3 Hcount.
    rewrite Hdaily;
      [|repeat (apply Forall_cons_2; [congruence|]); apply Forall_nil_2|done].
    unfold dated. rewrite !filter_cons, !decide_True by done.
    rewrite filter_nil. f_equal. unfold summary_of.
    assert (count_result Fail [r1; r2; r3] = 1) as Hfail.
    { revert Hcount. unfold count_result. rewrite !filter_cons.
      destruct (rec_result r1), (rec_result r2), (rec_result r3);
        repeat case_decide; try congruence; simpl; lia. }
    rewrite Hcount, Hfail. unfold time_sum. simpl. rewrite T1, T2, T3.
    reflexivity.
Qed.

(** Three rounds played on 2025-02-03. *)
Lemma summaries_by_key_witness :
  let d := mkDate 2025 2 3 in
  let r1 := mkRecord 1 1 Success 1 0 d "2025-02" 1 in
  let r2 := mkRecord 2 2 Fail 2 0 d "2025-02" 0 in
  let r3 := mkRecord 3 1 Success 3 1 d "2025-02" 1 in
  dict_get (_compute_daily_stats [r1; r2; r3]) (isoformat d)
    = Some (summary_of [r1; r2; r3]) ∧
  dict_get (_compute_daily_stats [r1; r2; r3]) (isoformat d)
    = Some {| rounds := 3; success := 2; fail := 1; total_time := 6%float;
              avg_time := Some (PyFloat 2%float) |}.
Proof.
  intros d r1 r2 r3.
  assert (valid_date d) as Hd by (unfold valid_date; simpl; lia).
  split.
  - apply (proj1 summaries_by_key [r1; r2; r3] d); [|exact Hd].
    repeat (apply Forall_cons_2; [exact Hd|]); apply Forall_nil_2.
  - by apply (proj2 (proj2 summaries_by_key) r1 r2 r3 d Hd).
Defined.

(** C9.  Over an empty log both summaries are the empty dict; nothing is
    raised (neither loop has a turn). *)
Theorem empty_log_summaries :
  _compute_daily_stats [] = [] ∧ _compute_monthly_stats [] = [].
Proof. split; reflexivity. Qed.

(** ** Counting every record once *)

Lemma count_result_partition group :
  count_result Success group + count_result Fail group
  = Z.of_nat (length group).
Proof.
  unfold count_result. induction group as [|r group IH]; [done|].
  rewrite !filter_cons. destruct (rec_result r);
    repeat case_decide; try congruence; simpl length; lia.
Qed.

Lemma total_rounds_set (d : Dict Stats) k v :
  dict_get d k = None → total_rounds (dict_set k v d) = total_rounds d + rounds v.
Proof.
  induction d as [|[k0 v0] d IH]; simpl; [lia|].
  destruct (decide (k0 = k)); [done|]. intros Hget. simpl.
  rewrite IH by done. lia.
Qed.

Lemma total_rounds_update f (d : Dict Stats) k :
  total_rounds (dict_update f k d)
  = total_rounds d
    + match dict_get d k with
      | Some st => rounds (f st) - rounds st
      | None => 0
      end.
Proof.
  induction d as [|[k0 v0] d IH]; simpl; [lia|].
  destruct (decide (k0 = k)); simpl; [lia|]. rewrite IH. lia.
Qed.

Lemma total_rounds_count_record key record d :
  total_rounds (count_record key record d) = total_rounds d + 1.
Proof.
  unfold count_record.
  destruct (dict_get d key) as [st|] eqn:Hget; destruct (rec_result record);
    rewrite !total_rounds_update, ?total_rounds_set, ?dict_get_update,
      ?dict_get_set, ?decide_True, ?Hget by done; simpl; lia.
Qed.

Lemma keys_count_record key record d :
  NoDup d.*1 → NoDup (count_record key record d).*1.
Proof.
  intros Hnd. unfold count_record.
  destruct (dict_get d key) as [st|] eqn:Hget; destruct (rec_result record);
    rewrite !dict_keys_update, ?dict_keys_set, ?Hget; try done;
    apply NoDup_app; (split; [done|]); (split; [|apply NoDup_singleton]);
    intros k Hk ->%list_elem_of_singleton; by apply dict_get_None in Hget.
Qed.

Lemma summary_totals key log :
  total_rounds ((λ '(k0, stats), (k0, average stats))
                  <$> foldl (λ d r, count_record (key r) r d) [] log)
    = Z.of_nat (length log) ∧
  NoDup ((λ '(k0, stats), (k0, average stats))
           <$> foldl (λ d r, count_record (key r) r d) [] log).*1.
Proof.
  assert (∀ d, total_rounds ((λ '(k0, stats), (k0, average stats)) <$> d)
               = total_rounds d) as Havg.
  { induction d as [|[k0 v0] d IH]; [done|]. rewrite fmap_cons. simpl.
    by rewrite IH. }
  assert (∀ d : Dict Stats,
            ((λ '(k0, stats), (k0, average stats)) <$> d).*1 = d.*1) as Hkeys.
  { induction d as [|[k0 v0] d IH]; [done|]. rewrite !fmap_cons. simpl.
    by rewrite IH. }
  rewrite Havg, Hkeys.
  assert (∀ d, NoDup d.*1 →
    total_rounds (foldl (λ d r, count_record (key r) r d) d log)
      = total_rounds d + Z.of_nat (length log) ∧
    NoDup (foldl (λ d r, count_record (key r) r d) d log).*1) as Hfold.
  { induction log as [|r log IH]; intros d Hnd; [simpl; split; [lia|done]|].
    cbn [foldl].
    destruct (IH (count_record (key r) r d)) as [IH1 IH2].
    { by apply keys_count_record. }
    rewrite IH1, total_rounds_count_record. split; [simpl length; lia|done]. }
  destruct (Hfold []) as [H1 H2]; [constructor|]. split; [|done].
  rewrite H1. simpl. lia.
Qed.

(** C10.  In the daily and in the monthly summary the successes and the
    failures of every entry add up to its rounds, the keys are pairwise
    different, and the rounds of all entries add up to the length of the
    log: every record is counted in exactly one entry. *)
Theorem summary_counts_partition log :
  (∀ k st, dict_get (_compute_daily_stats log) k = Some st →
           success st + fail st = rounds st) ∧
  total_rounds (_compute_daily_stats log) = Z.of_nat (length log) ∧
  NoDup (_compute_daily_stats log).*1 ∧
  (∀ k st, dict_get (_compute_monthly_stats log) k = Some st →
           success st + fail st = rounds st) ∧
  total_rounds (_compute_monthly_stats log) = Z.of_nat (length log) ∧
  NoDup (_compute_monthly_stats log).*1.
Proof.
  assert (∀ key k st,
    dict_get ((λ '(k0, stats), (k0, average stats))
                <$> foldl (λ d r, count_record (key r) r d) [] log) k = Some st →
    success st + fail st = rounds st) as Hentry.
  { intros key k st. rewrite summary_get.
    destruct (keyed key k log) as [|r group]; [done|].
    intros [= <-]. apply count_result_partition. }
  unfold _compute_daily_stats, _compute_monthly_stats.
  destruct (summary_totals (λ r, isoformat (rec_date r)) log) as [Hd1 Hd2].
  destruct (summary_totals rec_month_key log) as [Hm1 Hm2].
  repeat split; try done; apply Hentry.
Qed.

Lemma summary_counts_partition_witness :
  let d := mkDate 2025 2 3 in
  let log := [mkRecord 1 1 Success 1 0 d "2025-02" 1;
              mkRecord 2 2 Fail 2 0 d "2025-02" 0] in
  (∀ k st, dict_get (_compute_daily_stats log) k = Some st →
           success st + fail st = rounds st) ∧
  total_rounds (_compute_daily_stats log) = Z.of_nat (length log) ∧
  NoDup (_compute_daily_stats log).*1 ∧
  (∀ k st, dict_get (_compute_monthly_stats log) k = Some st →
           success st + fail st = rounds st) ∧
  total_rounds (_compute_monthly_stats log) = Z.of_nat (length log) ∧
  NoDup (_compute_monthly_stats log).*1.
Proof. intros d log. exact (summary_counts_partition log). Defined.

(** ** Methods on any state *)

Lemma only_buttons_ret {A} (a : A) : only_buttons (ret a).
Proof. intros s. exists (inr a), (buttons s). by rewrite set_buttons_same. Qed.

Lemma only_buttons_raise {A} e : only_buttons (raise (A:=A) e).
Proof. intros s. exists (inl e), (buttons s). by rewrite set_buttons_same. Qed.

Lemma only_buttons_gets {A} (f : State → A) : only_buttons (gets f).
Proof.
  intros s. exists (inr (f s)), (buttons s). by rewrite set_buttons_same.
Qed.

Lemma only_buttons_bind {A B} (m : M A) (k : A → M B) :
  only_buttons m → (∀ a, only_buttons (k a)) → only_buttons (bind m k).
Proof.
  intros Hm Hk s. destruct (Hm s) as (r & bs & Hms). unfold bind. rewrite Hms.
  destruct r as [e|a]; [by exists (inl e), bs|].
  destruct (Hk a (set_buttons bs s)) as (r' & bs' & ->). by exists r', bs'.
Qed.

Lemma only_buttons_for_each {A} (xs : list A) body :
  (∀ x, only_buttons (body x)) → only_buttons (for_each xs body).
Proof.
  intros Hb. induction xs as [|x xs IH]; [apply only_buttons_ret|].
  simpl. apply only_buttons_bind; [apply Hb | by intros _].
Qed.

Lemma only_buttons_configure_button row col c st :
  only_buttons (configure_button row col c st).
Proof.
  intros s. unfold configure_button. rewrite bind_get.
  destruct (py_slot _ _); [|apply only_buttons_raise].
  destruct (_ ≫= _); [|apply only_buttons_raise].
  by eexists _, _.
Qed.

Lemma only_buttons_grid_loop c st :
  only_buttons (gs <- gets grid_size ;;
                for_each (range gs) (λ row,
                  gs' <- gets grid_size ;;
                  for_each (range gs') (λ col,
                    configure_button row col c st))).
Proof.
  apply only_buttons_bind; [apply only_buttons_gets|]. intros gs.
  apply only_buttons_for_each. intros row.
  apply only_buttons_bind; [apply only_buttons_gets|]. intros gs'.
  apply only_buttons_for_each. intros col.
  apply only_buttons_configure_button.
Qed.

(** [end_round] on any state: it raises having written nothing but
    buttons, or it returns having done all its updates. *)
Lemma end_round_cases w success s :
  (∃ e bs, end_round w success s = (inl e, set_buttons bs s)) ∨
  (∃ started bs, round_start_time s = Some started ∧
                 end_round w success s = (inr tt, ended w success started bs s)).
Proof.
  destruct (end_round w success s) as [res s'] eqn:Hrun.
  unfold end_round in Hrun.
  destruct (only_buttons_grid_loop None (Some disabled) s) as (r & bs & Hloop).
  rewrite <- bind_assoc in Hrun. unfold bind at 1 in Hrun. rewrite Hloop in Hrun.
  destruct r as [e|[]].
  { injection Hrun as <- <-. left. by exists e, bs. }
  rewrite bind_gets in Hrun. cbn [round_start_time set_buttons] in Hrun.
  destruct (round_start_time s) as [started|] eqn:Ht.
  2:{ injection Hrun as <- <-. left. by exists TypeError, bs. }
  right. exists started, bs. split; [done|]. rewrite <- Hrun.
  destruct success; repeat mstep; unfold when, ended, round_record.
  - cbn. case_bool_decide; repeat mstep; cbn; reflexivity.
  - cbn. reflexivity.
Qed.

(** ** Runs of successes, one outcome more *)

Lemma trailing_run_snoc os b :
  trailing_run (os ++ [b]) = if b then S (trailing_run os) else 0%nat.
Proof. unfold trailing_run. rewrite reverse_snoc. by destruct b. Qed.

Lemma all_true_or_false (l : list bool) :
  l = replicate (length l) true ∨ ∃ l1 l2, l = l1 ++ false :: l2.
Proof.
  induction l as [|[] l IH].
  - by left.
  - destruct IH as [IH|(l1 & l2 & ->)].
    + left. simpl. by rewrite <- IH.
    + right. by exists (true :: l1), l2.
  - right. by exists [], l.
Qed.

Lemma max_run_snoc_false os : max_run (os ++ [false]) = max_run os.
Proof.
  induction os as [|o os IH]; [done|].
  cbn [app max_run]. rewrite IH.
  change (o :: os ++ [false]) with ((o :: os) ++ [false]).
  by rewrite leading_run_app_false.
Qed.

Lemma max_run_snoc_true os :
  max_run (os ++ [true]) = Nat.max (max_run os) (S (trailing_run os)).
Proof.
  induction os as [|o os IH]; [done|].
  cbn [app max_run]. rewrite IH. clear IH.
  change (o :: os ++ [true]) with ((o :: os) ++ [true]).
  destruct (all_true_or_false (o :: os)) as [Hall|(m1 & m2 & Hm)].
  - cbn [length replicate] in Hall. injection Hall as -> Hos.
    set (n := length os) in *. rewrite Hos.
    change (true :: replicate n true) with (replicate (S n) true).
    rewrite leading_run_replicate, !trailing_run_replicate, max_run_replicate.
    rewrite <- (app_nil_r (replicate (S n) true)), leading_run_replicate.
    simpl. lia.
  - assert (trailing_run os = trailing_run (o :: os)) as ->.
    { rewrite Hm, trailing_run_app_false.
      destruct m1 as [|o' m1]; injection Hm as -> ->; [done|].
      by rewrite trailing_run_app_false. }
    rewrite Hm, <- app_assoc. cbn [app]. rewrite !leading_run_app_false. lia.
Qed.

Lemma max_run_snoc os b :
  max_run (os ++ [b]) = Nat.max (max_run os) (trailing_run (os ++ [b])).
Proof.
  rewrite trailing_run_snoc. destruct b.
  - apply max_run_snoc_true.
  - rewrite max_run_snoc_false. lia.
Qed.

Lemma trailing_run_le_max_run os : (trailing_run os ≤ max_run os)%nat.
Proof.
  induction os as [|o os _] using rev_ind; [done|].
  rewrite max_run_snoc. lia.
Qed.

(** ** The bookkeeping stays consistent *)

Lemma consistent_blind : widget_blind consistent.
Proof. split; intros ? s []; by constructor. Qed.

Lemma outcomes_snoc log r :
  outcomes (log ++ [r])
  = outcomes log ++ [bool_decide (rec_result r = Success)].
Proof. unfold outcomes. by rewrite fmap_app. Qed.

Lemma consistent_ended w success started bs s :
  consistent s → consistent (ended w success started bs s).
Proof.
  intros [Hrounds Hcur Hlong Hafter Hkeys Hcursor Hreplays].
  assert (bool_decide ((if success then Success else Fail) = Success) = success)
    as Hb by (by destruct success).
  assert (Z.of_nat (trailing_run (outcomes (performance_data s) ++ [success]))
          = if success then current_streak s + 1 else 0) as Htr.
  { rewrite trailing_run_snoc. destruct success; lia. }
  constructor; cbn -[trailing_run max_run outcomes seqZ].
  - rewrite fmap_app, length_app, Hrounds. cbn.
    rewrite Nat2Z.inj_add.
    rewrite (seqZ_app 1 (Z.of_nat (length (performance_data s))) (Z.of_nat 1))
      by lia.
    f_equal. change (Z.of_nat 1) with 1. unfold seqZ.
    change (Z.to_nat 1) with 1%nat. cbn [seq fmap list_fmap]. f_equal. lia.
  - rewrite outcomes_snoc. cbn [rec_result round_record]. by rewrite Hb, Htr.
  - rewrite outcomes_snoc. cbn [rec_result round_record].
    rewrite Hb, max_run_snoc.
    rewrite Nat2Z.inj_max, Htr, <- Hlong.
    clear Hb. destruct success; cbn [andb]; [case_bool_decide|]; lia.
  - intros i r Hi.
    destruct (decide (i < length (performance_data s))%nat) as [Hlt|Hge].
    + rewrite lookup_app_l in Hi by done.
      rewrite take_app_le by lia. by apply Hafter.
    + apply lookup_lt_Some in Hi as Hi'. rewrite length_app in Hi'. cbn in Hi'.
      assert (i = length (performance_data s)) as -> by lia.
      rewrite list_lookup_middle in Hi by done. injection Hi as <-.
      rewrite take_ge by (rewrite length_app; cbn; lia).
      rewrite outcomes_snoc. cbn [rec_result round_record]. by rewrite Hb, Htr.
  - apply Forall_app. split; [done|]. by apply Forall_singleton.
  - done.
  - done.
Qed.

Lemma keeps_consistent_end_round w success :
  keeps consistent (end_round w success).
Proof.
  intros s Hs.
  destruct (end_round_cases w success s)
    as [(e & bs & ->)|(started & bs & _ & ->)]; cbn [snd].
  - by apply consistent_blind.
  - by apply consistent_ended.
Qed.

Lemma py_index_Some {A} (l : list A) i x :
  py_index l i = Some x → - Z.of_nat (length l) ≤ i < Z.of_nat (length l).
Proof.
  unfold py_index. repeat case_decide; [lia | lia | done].
Qed.

Lemma keeps_consistent_on_block_click w row col :
  keeps consistent (on_block_click w row col).
Proof.
  intros s Hs. unfold on_block_click. rewrite bind_get.
  destruct (showing_sequence s); [done|].
  destruct (py_index _ _) as [correct_position|] eqn:Hidx; [|done].
  apply py_index_Some in Hidx.
  destruct (decide _) as [_|_].
  - destruct (only_buttons_configure_button row col
                (Some correct_select_color) (Some disabled) s)
      as (r & bs & Hc).
    unfold bind at 1. rewrite Hc. destruct r as [e|[]]; cbn [snd].
    { by apply consistent_blind. }
    rewrite bind_modify, bind_get.
    apply keeps_when; [apply keeps_consistent_end_round|].
    destruct Hs. constructor; cbn; try done. lia.
  - apply keeps_bind; [|intros _; apply keeps_consistent_end_round|done].
    apply keeps_configure_button, consistent_blind.
Qed.

Lemma keeps_show_sequence_step P index :
  widget_blind P →
  (∀ s, P s → P (set_showing_sequence false s)) →
  (∀ m s, P s → P (set_message_label m s)) →
  (∀ st s, P s → P (set_show_pattern_button st s)) →
  keeps P (show_sequence_step index).
Proof.
  intros Hb H1 H2 H3. unfold show_sequence_step, finish_showing_sequence.
  keeps_tac; auto.
Qed.

Lemma keeps_consistent_start_new_round w :
  keeps consistent (start_new_round w).
Proof.
  intros s Hs. unfold start_new_round. rewrite bind_modify.
  set (P := λ s, consistent (set_correct_sequence [] s)).
  assert (widget_blind P) as HP.
  { split; intros ? s0 []; by constructor. }
  assert (∀ s, P s → consistent s) as Hback.
  { intros s0 []. cbn in *. constructor; try done. lia. }
  apply Hback.
  match goal with |- P (snd (?m ?s0)) =>
    assert (keeps P m) as Hkeeps; [|apply Hkeeps] end.
  - keeps_tac; try (intros ? []; by constructor).
    apply keeps_show_sequence_step; try done;
      first [intros ? ? [] | intros ? []]; by constructor.
  - destruct Hs. by constructor.
Qed.

Lemma keeps_consistent_dispatch w e : keeps consistent (dispatch w e).
Proof.
  pose proof consistent_blind as Hb.
  unfold dispatch. apply keeps_bind_get. intros s0 _.
  destruct e as [row col| | |k].
  - destruct (_ ≫= _) as [b|]; [|apply keeps_ret].
    destruct (state b); [apply keeps_consistent_on_block_click|apply keeps_ret].
  - destruct (next_button s0);
      [apply keeps_consistent_start_new_round|apply keeps_ret].
  - destruct (show_pattern_button s0); [|apply keeps_ret].
    unfold show_pattern_again.
    keeps_tac; try (intros ? []; constructor; cbn; (done || lia)).
    apply keeps_show_sequence_step; try done;
      first [intros ? ? [] | intros ? []]; by constructor.
  - destruct (timers s0 !! k) as [[ms cb]|]; [|apply keeps_ret].
    apply keeps_bind; [apply keeps_modify; intros; by apply Hb|]. intros _.
    destruct cb as [index|index]; simpl.
    + unfold hide_sequence_step. keeps_tac.
    + apply keeps_show_sequence_step; try done;
        first [intros ? ? [] | intros ? []]; by constructor.
Qed.

Lemma keeps_grid (P : State → Prop) row column columnspan :
  keeps P (grid row column columnspan).
Proof. intros s Hs. unfold grid. by destruct (decide _). Qed.

Lemma keeps_new_row (P : State → Prop) row cols : ∀ row_buttons,
  keeps P (new_row row cols row_buttons).
Proof.
  induction cols as [|col cols IH]; intros row_buttons; simpl.
  - apply keeps_ret.
  - apply keeps_bind; [apply keeps_grid | intros _; apply IH].
Qed.

Lemma keeps_create_widgets (P : State → Prop) :
  (∀ bs s, P s → P (set_buttons bs s)) →
  (∀ m s, P s → P (set_message_label m s)) →
  (∀ st s, P s → P (set_next_button st s)) →
  (∀ st s, P s → P (set_show_pattern_button st s)) →
  keeps P create_widgets.
Proof.
  intros H1 H2 H3 H4. unfold create_widgets.
  repeat first
    [ apply keeps_grid | apply keeps_new_row
    | apply keeps_bind; [|intros ?]
    | apply keeps_for_each; intros ?
    | apply keeps_gets
    | apply keeps_modify; intros ? ? ]; auto.
Qed.

Lemma blank_consistent gs isl il : consistent (blank gs isl il).
Proof. by constructor. Qed.

Lemma init_consistent w gs isl il : consistent (snd (init w gs isl il)).
Proof.
  unfold init.
  match goal with |- consistent (snd (?m _)) =>
    assert (keeps consistent m) as Hkeeps; [|apply Hkeeps, blank_consistent] end.
  apply keeps_bind; [|intros _; apply keeps_consistent_start_new_round].
  apply keeps_create_widgets; intros ? ? []; by constructor.
Qed.

(** Whatever the constructor was given and whatever the main loop
    delivers afterwards, the bookkeeping is consistent. *)
Lemma game_consistent w gs isl il evs :
  consistent (run evs (snd (init w gs isl il))).
Proof.
  apply (keeps_run consistent keeps_consistent_dispatch), init_consistent.
Qed.

(** X1.  In every game, whatever the constructor was given and whatever
    presses and timer callbacks the main loop delivers afterwards (those
    that raise included), the records of the log are numbered 1, 2, ..., N
    in order, N being the length of the log. *)
Theorem game_log_numbered w gs isl il evs :
  let s := run evs (snd (init w gs isl il)) in
  rec_round <$> performance_data s
  = seqZ 1 (Z.of_nat (length (performance_data s))).
Proof. apply game_consistent. Qed.

(** X2.  In every game and after any events, [current_streak] is the
    number of successes the log ends with, [longest_streak] is the length
    of the longest block of consecutive successes of the log, and
    0 <= current_streak <= longest_streak. *)
Theorem game_streaks w gs isl il evs :
  let s := run evs (snd (init w gs isl il)) in
  current_streak s = Z.of_nat (trailing_run (outcomes (performance_data s))) ∧
  longest_streak s = Z.of_nat (max_run (outcomes (performance_data s))) ∧
  0 ≤ current_streak s ≤ longest_streak s.
Proof.
  intros s. destruct (game_consistent w gs isl il evs) as [_ Hc Hl _ _ _ _].
  fold s in Hc, Hl. split; [done|]. split; [done|]. rewrite Hc, Hl.
  pose proof (trailing_run_le_max_run (outcomes (performance_data s))). lia.
Qed.

(** X3.  In every game, the streak stored in a record of the log is the
    number of successes the log ends with once cut after that record (0
    for a failed round), and the record's month key is the "%Y-%m" text of
    its own date. *)
Theorem game_record_streak w gs isl il evs (i : nat) r :
  let log := performance_data (run evs (snd (init w gs isl il))) in
  log !! i = Some r →
  rec_streak_after_round r
  = Z.of_nat (trailing_run (outcomes (take (S i) log))) ∧
  (rec_result r = Fail → rec_streak_after_round r = 0) ∧
  rec_month_key r = strftime_Ym (rec_date r).
Proof.
  intros log Hi.
  destruct (game_consistent w gs isl il evs) as [_ _ _ Hafter Hkeys _ _].
  fold log in Hafter, Hkeys.
  pose proof (Hafter i r Hi) as Hr. split; [done|]. split.
  - intros Hfail. rewrite Hr.
    rewrite (take_S_r _ _ _ Hi), outcomes_snoc, trailing_run_snoc, Hfail.
    by rewrite bool_decide_false.
  - by apply (Forall_lookup_1 _ _ _ _ Hkeys Hi).
Qed.

Lemma game_record_streak_witness :
  let r := mkRecord 1 1 Fail 2.5 0 (mkDate 2025 2 3) "2025-02" 0 in
  rec_streak_after_round r
  = Z.of_nat (trailing_run (outcomes (take 1
      (performance_data
         (run (replicate 6 (demo_later, Timer 0%nat)
                 ++ [(demo_later, Click 1 0)])
              (snd (init demo_world 2 3 1))))))) ∧
  (rec_result r = Fail → rec_streak_after_round r = 0) ∧
  rec_month_key r = strftime_Ym (rec_date r).
Proof.
  intros r.
  apply (game_record_streak demo_world 2 3 1
           (replicate 6 (demo_later, Timer 0%nat) ++ [(demo_later, Click 1 0)])
           0%nat r).
  vm_compute. reflexivity.
Defined.

(** X4.  In every game and after any events, the input cursor lies
    between 0 and the length of the sequence, so [correct_sequence] is
    never read at a negative index, and the replay count is not
    negative. *)
Theorem game_cursor_in_range w gs isl il evs :
  let s := run evs (snd (init w gs isl il)) in
  0 ≤ sequence_index s ≤ Z.of_nat (length (correct_sequence s)) ∧
  0 ≤ replay_count s.
Proof. intros s. by destruct (game_consistent w gs isl il evs). Qed.

(** ** The board stays in place *)

Lemma random_sample_inr {A} (population : list A) k rnd sample :
  NoDup population → random_sample population k rnd = inr sample →
  Z.of_nat (length sample) = k ∧ NoDup sample ∧ sample ⊆ population.
Proof.
  intros Hnd. unfold random_sample. case_decide as Hk; [|done].
  intros [= <-].
  destruct (sample_loop_spec rnd (length population) (Z.to_nat k) 0 population)
    as (H1 & H2 & H3); [done | lia | |].
  { by rewrite Nat.sub_0_r, firstn_all. }
  rewrite Nat.sub_0_r, firstn_all in H3. split; [lia|]. done.
Qed.

Lemma board_alter gs isl s0 s f (i j : nat) :
  board gs isl s0 → board gs isl s →
  board gs isl (set_buttons (alter (alter f j) i (buttons s0)) s).
Proof.
  intros (Hgs0 & _ & [Hlen Hrows] & _) (Hgs & Hisl & _ & Hin & Hnd).
  split; [done|]. split; [done|]. split; [|done].
  split; cbn; rewrite Hgs, <- Hgs0.
  - by rewrite length_alter.
  - apply Forall_alter; [done|]. intros rb _ Hrb. by rewrite length_alter.
Qed.

Lemma board_frame gs isl s s' :
  grid_size s' = grid_size s →
  initial_sequence_length s' = initial_sequence_length s →
  buttons s' = buttons s →
  correct_sequence s' = correct_sequence s →
  board gs isl s → board gs isl s'.
Proof.
  unfold board, grid_ok, sequence_in_grid. by intros -> -> -> ->.
Qed.

Lemma board_fmap gs isl s s' f :
  grid_size s' = grid_size s →
  initial_sequence_length s' = initial_sequence_length s →
  buttons s' = fmap (M:=list) f <$> buttons s →
  correct_sequence s' = correct_sequence s →
  board gs isl s → board gs isl s'.
Proof.
  intros H1 H2 H3 H4 (Hgs & Hisl & Hg & Hin & Hnd).
  split; [congruence|]. split; [congruence|].
  split; [by eapply grid_ok_fmap|].
  unfold sequence_in_grid. by rewrite H1, H4.
Qed.

Lemma board_sample gs isl s k rnd sample :
  board gs isl s →
  random_sample (r ← range (grid_size s); c ← range (grid_size s); [(r, c)])
                k rnd = inr sample →
  board gs isl (set_correct_sequence sample s).
Proof.
  intros (Hgs & Hisl & Hg & _ & _) Hs.
  apply random_sample_inr in Hs as (_ & Hnd & Hsub);
    [|apply all_positions_NoDup].
  split; [done|]. split; [done|]. split; [done|]. split; [|done].
  intros r c Hin. cbn in *. by apply all_positions_elem, Hsub.
Qed.

Lemma keeps_board_configure_button gs isl row col c st :
  keeps (board gs isl) (configure_button row col c st).
Proof.
  unfold configure_button. apply keeps_bind_get. intros s0 Hs0.
  destruct (py_slot _ _); [|apply keeps_raise].
  destruct (_ ≫= _); [|apply keeps_raise].
  apply keeps_modify. intros s Hs. by apply board_alter.
Qed.

Lemma board_timers gs isl ts s :
  board gs isl s → board gs isl (set_timers ts s).
Proof. by apply board_frame. Qed.

(** One construct of a method body, for [board]. *)
Ltac board_step :=
  lazymatch goal with
  | |- keeps _ (configure_button _ _ _ _) => apply keeps_board_configure_button
  | |- keeps _ (after _ _) =>
      apply keeps_modify; intros ?; apply board_timers
  | |- keeps _ (match ?x with _ => _ end) => destruct x eqn:?
  | |- _ => keeps_step
  end.

Ltac board_tac :=
  repeat board_step;
  try (intros ?; by apply board_frame).

Lemma keeps_board_start_new_round gs isl w :
  keeps (board gs isl) (start_new_round w).
Proof.
  unfold start_new_round, show_sequence_step, finish_showing_sequence.
  board_tac.
  intros s Hs. eapply board_sample; [done|].
  match goal with H : board _ _ ?s0, E : random_sample _ _ _ = _ |- _ =>
    destruct H as (Hgs0 & _); destruct Hs as (Hgs & _);
    rewrite Hgs, <- Hgs0; exact E end.
Qed.

Lemma keeps_board_dispatch gs isl w e : keeps (board gs isl) (dispatch w e).
Proof.
  unfold dispatch, on_block_click, show_pattern_again,
    run_callback, end_round, show_sequence_step, hide_sequence_step,
    finish_showing_sequence, when.
  board_tac. apply keeps_board_start_new_round.
Qed.

(** ** [create_widgets] *)

Lemma grid_ok_run row column columnspan s :
  0 ≤ row → 0 ≤ column → 1 ≤ columnspan →
  grid row column columnspan s = (inr tt, s).
Proof. intros. unfold grid. by rewrite decide_True. Qed.

Lemma grid_raises row column columnspan s :
  columnspan ≤ 0 → grid row column columnspan s = (inl TclError, s).
Proof. intros. unfold grid. rewrite decide_False; [done | lia]. Qed.

Lemma new_row_run row (cols : list Z) : ∀ row_buttons s,
  0 ≤ row → Forall (λ col, 0 ≤ col) cols →
  new_row row cols row_buttons s
  = (inr (row_buttons
            ++ replicate (length cols) (mkButton default_color normal)), s).
Proof.
  induction cols as [|col cols IH]; intros row_buttons s Hrow Hcols; simpl.
  - by rewrite app_nil_r.
  - apply Forall_cons in Hcols as [Hcol Hcols].
    erewrite bind_ok by (apply grid_ok_run; lia).
    rewrite IH by done. by rewrite <- app_assoc.
Qed.

Lemma range_nonneg n : Forall (λ i, 0 ≤ i) (range n).
Proof.
  apply Forall_forall. intros i Hi. unfold range in Hi.
  apply elem_of_seqZ in Hi. lia.
Qed.

Lemma create_widgets_rows (rows : list Z) : ∀ s,
  Forall (λ row, 0 ≤ row) rows →
  for_each rows (λ row,
    gs' <- gets grid_size ;;
    row_buttons <- new_row row (range gs') [] ;;
    modify (λ s, set_buttons (buttons s ++ [row_buttons]) s)) s
  = (inr tt,
     set_buttons
       (buttons s
          ++ replicate (length rows)
               (replicate (Z.to_nat (grid_size s))
                  (mkButton default_color normal))) s).
Proof.
  induction rows as [|row rows IH]; intros s Hrows; simpl.
  - by rewrite app_nil_r, set_buttons_same.
  - apply Forall_cons in Hrows as [Hrow Hrows].
    rewrite bind_assoc, bind_gets.
    rewrite bind_assoc.
    erewrite bind_ok by (apply new_row_run; [done | apply range_nonneg]).
    rewrite bind_modify, IH by done. cbn. unfold range.
    by rewrite length_seqZ, <- app_assoc.
Qed.

(** With a grid size of 1 or more every widget finds its place. *)
Lemma create_widgets_run s :
  1 ≤ grid_size s →
  create_widgets s
  = (inr tt,
     set_show_pattern_button disabled
       (set_next_button disabled
          (set_message_label MsgNone
             (set_buttons
                (buttons s
                   ++ replicate (Z.to_nat (grid_size s))
                        (replicate (Z.to_nat (grid_size s))
                           (mkButton default_color normal))) s)))).
Proof.
  intros Hgs. unfold create_widgets. rewrite bind_gets.
  erewrite bind_ok by (apply create_widgets_rows, range_nonneg).
  rewrite bind_modify, bind_gets.
  erewrite bind_ok by (apply grid_ok_run; cbn; lia).
  rewrite bind_modify, bind_gets.
  erewrite bind_ok by (apply grid_ok_run; cbn; lia).
  rewrite bind_modify, bind_gets.
  erewrite bind_ok by (apply grid_ok_run; cbn; lia).
  rewrite bind_gets, grid_ok_run by (cbn; lia).
  unfold range. by rewrite length_seqZ.
Qed.

(** With a grid size of 0 or less there are no buttons to make, and the
    label is refused its place under the grid. *)
Lemma create_widgets_raises s :
  grid_size s ≤ 0 →
  create_widgets s = (inl TclError, set_message_label MsgNone s).
Proof.
  intros Hgs. unfold create_widgets. rewrite bind_gets.
  replace (range (grid_size s)) with (@nil Z)
    by (unfold range, seqZ; by rewrite Z2Nat.nonpos).
  cbn [for_each]. rewrite bind_ret, bind_modify, bind_gets.
  erewrite bind_raise; [done|]. by apply grid_raises.
Qed.

Lemma init_board w gs isl il : board gs isl (snd (init w gs isl il)).
Proof.
  unfold init. destruct (decide (1 ≤ gs)) as [Hgs|Hgs].
  - erewrite bind_ok by (by apply create_widgets_run).
    apply keeps_board_start_new_round.
    split; [done|]. split; [done|]. split; [|split].
    + split; cbn.
      * by rewrite length_replicate.
      * apply Forall_replicate. by rewrite length_replicate.
    + intros r c Hin. by apply not_elem_of_nil in Hin.
    + constructor.
  - erewrite bind_raise by (apply create_widgets_raises; cbn; lia).
    cbn [snd]. split; [done|]. split; [done|]. split; [|split].
    + split; cbn; [lia | constructor].
    + intros r c Hin. by apply not_elem_of_nil in Hin.
    + constructor.
Qed.

Lemma game_board w gs isl il evs :
  board gs isl (run evs (snd (init w gs isl il))).
Proof.
  apply (keeps_run (board gs isl) (keeps_board_dispatch gs isl)), init_board.
Qed.

(** ** What a callback can raise *)

Section Safe.
Context (P : State → Prop) (E : Exn → Prop).

Lemma safe_ret {A} (a : A) : safe P E (ret a).
Proof. by intros s. Qed.

Lemma safe_raise {A} e : E e → safe P E (raise (A:=A) e).
Proof. by intros He s. Qed.

Lemma safe_modify f : (∀ s, P s → P (f s)) → safe P E (modify f).
Proof. intros Hf s Hs. split; [by apply Hf | done]. Qed.

Lemma safe_bind {A B} (m : M A) (k : A → M B) :
  safe P E m → (∀ a, safe P E (k a)) → safe P E (bind m k).
Proof.
  intros Hm Hk s Hs. unfold bind. specialize (Hm s Hs).
  destruct (m s) as [[e|a] s1]; [done|]. apply Hk, Hm.
Qed.

Lemma safe_bind_get {B} (k : State → M B) :
  (∀ s0, P s0 → safe P E (k s0)) → safe P E (bind get k).
Proof. intros Hk s Hs. rewrite bind_get. by apply Hk. Qed.

Lemma safe_bind_gets {A B} (f : State → A) (k : A → M B) :
  (∀ s0, P s0 → safe P E (k (f s0))) → safe P E (bind (gets f) k).
Proof. intros Hk s Hs. rewrite bind_gets. by apply Hk. Qed.

Lemma safe_for_each {A} (xs : list A) body :
  (∀ x, safe P E (body x)) → safe P E (for_each xs body).
Proof.
  intros Hb. induction xs as [|x xs IH]; [apply safe_ret|].
  simpl. apply safe_bind; [apply Hb | by intros _].
Qed.

Lemma safe_when c m : safe P E m → safe P E (when c m).
Proof. intros Hm. destruct c; [done | apply safe_ret]. Qed.

Lemma safe_keeps {A} (m : M A) : safe P E m → keeps P m.
Proof. intros Hm s Hs. apply Hm, Hs. Qed.
End Safe.

Section Sound.
Context (gs isl : Z) (Hgs : 0 ≤ gs) (Hisl : 0 ≤ isl).

Lemma sound_frame s s' :
  grid_size s' = grid_size s →
  initial_sequence_length s' = initial_sequence_length s →
  buttons s' = buttons s →
  correct_sequence s' = correct_sequence s →
  round_start_time s' = round_start_time s →
  level s' = level s →
  sound gs isl s → sound gs isl s'.
Proof.
  intros H1 H2 H3 H4 H5 H6 (Hb & Ht & Hl). split; [|split].
  - by eapply board_frame.
  - by rewrite H5.
  - by rewrite H6.
Qed.

Lemma safe_configure_button row col c st :
  safe (sound gs isl) only_index (configure_button row col c st).
Proof.
  unfold configure_button. apply safe_bind_get. intros s0 Hs0.
  destruct (py_slot _ _); [|by apply safe_raise].
  destruct (_ ≫= _); [|by apply safe_raise].
  apply safe_modify. intros s (Hb & Ht & Hl). split; [|done].
  apply board_alter; [apply Hs0 | done].
Qed.

(** One construct of a method body, for [sound]. *)
Ltac safe_step :=
  lazymatch goal with
  | |- safe _ _ (bind get _) => apply safe_bind_get; intros ? ?
  | |- safe _ _ (bind (gets _) _) => apply safe_bind_gets; intros ? ?
  | |- safe _ _ (bind _ _) => apply safe_bind; [|intros ?]
  | |- safe _ _ (ret _) => apply safe_ret
  | |- safe _ _ (raise IndexError) => by apply safe_raise
  | |- safe _ _ (modify _) => apply safe_modify
  | |- safe _ _ (for_each _ _) => apply safe_for_each; intros ?
  | |- safe _ _ (when _ _) => apply safe_when
  | |- safe _ _ (configure_button _ _ _ _) => apply safe_configure_button
  | |- safe _ _ (after _ _) => apply safe_modify
  | |- safe _ _ (match ?x with _ => _ end) => destruct x eqn:?
  end.

Ltac safe_tac :=
  repeat safe_step;
  try (intros ?; by apply sound_frame).

Lemma safe_show_sequence_step index :
  safe (sound gs isl) only_index (show_sequence_step index).
Proof.
  unfold show_sequence_step, finish_showing_sequence. safe_tac.
Qed.

Lemma safe_hide_sequence_step index :
  safe (sound gs isl) only_index (hide_sequence_step index).
Proof. unfold hide_sequence_step. safe_tac. Qed.

Lemma sound_level s v :
  1 ≤ v → sound gs isl s → sound gs isl (set_level v s).
Proof.
  intros Hv (Hb & Ht & Hl). split; [|done]. by eapply board_frame.
Qed.

Lemma safe_end_round w success :
  safe (sound gs isl) only_index (end_round w success).
Proof.
  unfold end_round. safe_tac.
  - intros s Hs. apply sound_level; [|done]. destruct Hs as (_ & _ & Hl). lia.
  - intros s Hs. by apply sound_level.
  - match goal with H : sound _ _ ?s0, E : round_start_time ?s0 = None |- _ =>
      destruct H as (_ & [? Ht] & _); congruence end.
Qed.

Lemma safe_on_block_click w row col :
  safe (sound gs isl) only_index (on_block_click w row col).
Proof.
  unfold on_block_click. safe_tac; apply safe_end_round.
Qed.

Lemma safe_show_pattern_again :
  safe (sound gs isl) only_index show_pattern_again.
Proof.
  unfold show_pattern_again. safe_tac. apply safe_show_sequence_step.
Qed.

Lemma safe_start_new_round w :
  safe (sound gs isl) only_index (start_new_round w).
Proof.
  unfold start_new_round. safe_tac.
  - intros s (Hb & _ & Hl). split; [by eapply board_frame|].
    split; [by eexists | done].
  - match goal with H : sound _ _ ?s0, E : random_sample ?p ?k ?r = _ |- _ =>
      destruct H as ((Hgs0 & Hisl0 & _) & _ & Hl);
      destruct (random_sample_spec p k r) as (sample & Hs & _);
        [apply all_positions_NoDup
        |rewrite all_positions_length by lia; nia
        |congruence] end.
  - intros s (Hb & Ht & Hl). split; [|done]. eapply board_sample; [done|].
    match goal with H : sound _ _ ?s0, E : random_sample _ _ _ = _ |- _ =>
      destruct H as ((Hgs0 & _) & _); destruct Hb as (Hgs' & _);
      rewrite Hgs', <- Hgs0; exact E end.
  - apply safe_show_sequence_step.
Qed.

Lemma safe_dispatch w e : safe (sound gs isl) only_index (dispatch w e).
Proof.
  unfold dispatch. apply safe_bind_get. intros s0 Hs0.
  destruct e as [row col| | |k].
  - destruct (_ ≫= _) as [b|]; [|apply safe_ret].
    destruct (state b); [apply safe_on_block_click|apply safe_ret].
  - destruct (next_button s0); [apply safe_start_new_round|apply safe_ret].
  - destruct (show_pattern_button s0);
      [apply safe_show_pattern_again|apply safe_ret].
  - destruct (timers s0 !! k) as [[ms [index|index]]|]; [| |apply safe_ret].
    + apply safe_bind; [|intros _; apply safe_hide_sequence_step].
      apply safe_modify. intros s. by apply sound_frame.
    + apply safe_bind; [|intros _; apply safe_show_sequence_step].
      apply safe_modify. intros s. by apply sound_frame.
Qed.
End Sound.

(** ** [start_new_round], run *)

Lemma start_new_round_run w s :
  grid_ok s → 0 ≤ grid_size s →
  0 ≤ initial_sequence_length s + (level s - 1) →
  ∃ sample,
    random_sample (r ← range (grid_size s); c ← range (grid_size s); [(r, c)])
                  (sequence_length s) (draw w) = inr sample ∧
    Z.of_nat (length sample) = sequence_length s ∧
    NoDup sample ∧
    (∀ r c, (r, c) ∈ sample → 0 ≤ r < grid_size s ∧ 0 ≤ c < grid_size s) ∧
    start_new_round w s = show_sequence_step 0 (round_base w sample s).
Proof.
  intros Hg Hgs Hlen.
  destruct (random_sample_spec
              (r ← range (grid_size s); c ← range (grid_size s); [(r, c)])
              (sequence_length s) (draw w))
    as (sample & Hs & Hl & Hnd & Hsub).
  { apply all_positions_NoDup. }
  { rewrite all_positions_length by done. unfold sequence_length. lia. }
  exists sample. split; [done|]. split; [done|]. split; [done|]. split.
  { intros r c Hin. by apply all_positions_elem, Hsub. }
  unfold start_new_round. repeat mstep. cbn.
  unfold sequence_length in Hs. rewrite Hs. by mstep.
Qed.

Lemma round_base_grid_ok w sample s : grid_ok s → grid_ok (round_base w sample s).
Proof.
  intros Hg.
  by apply (grid_ok_fmap (configure (Some default_color) (Some disabled)) s).
Qed.

(** ** One button configured *)

Lemma configure_button_paint s r c col st :
  grid_ok s → 0 ≤ r < grid_size s → 0 ≤ c < grid_size s →
  configure_button r c col st s
  = (inr tt, set_buttons (paint col st (r, c) (buttons s)) s).
Proof.
  intros Hg Hr Hc.
  destruct (grid_lookup s r c Hg Hr Hc) as (rb & b & Hrb & Hb).
  apply lookup_lt_Some in Hrb as Hrl. apply lookup_lt_Some in Hb as Hbl.
  unfold configure_button. rewrite bind_get.
  unfold py_slot at 1. rewrite decide_True by lia.
  rewrite Hrb. cbn [mbind option_bind].
  unfold py_slot. rewrite decide_True by lia. reflexivity.
Qed.

Lemma button_at_paint_eq bs p c st b :
  button_at bs p = Some b →
  button_at (paint c st p bs) p = Some (configure c st b).
Proof.
  unfold button_at, paint. intros Hb.
  destruct (bs !! Z.to_nat p.1) as [rb|] eqn:Hrb; [|done]. cbn in Hb.
  rewrite list_lookup_alter_eq, Hrb. cbn.
  by rewrite list_lookup_alter_eq, Hb.
Qed.

Lemma button_at_paint_ne bs p q c st :
  0 ≤ p.1 → 0 ≤ p.2 → 0 ≤ q.1 → 0 ≤ q.2 → p ≠ q →
  button_at (paint c st p bs) q = button_at bs q.
Proof.
  unfold button_at, paint. intros Hp1 Hp2 Hq1 Hq2 Hne.
  destruct (decide (Z.to_nat p.1 = Z.to_nat q.1)) as [Heq|Hne1].
  - rewrite Heq, list_lookup_alter_eq.
    destruct (bs !! Z.to_nat q.1) as [rb|]; [|done]. cbn.
    rewrite list_lookup_alter_ne; [done|].
    intros Heq2. apply Hne. destruct p, q. cbn in *. f_equal; lia.
  - by rewrite list_lookup_alter_ne.
Qed.

(** Painting a cell with the colour it has leaves the buttons as they
    are. *)
Lemma paint_same_color bs p b :
  button_at bs p = Some b →
  paint (Some (bg b)) None p bs = bs.
Proof.
  unfold button_at, paint. intros Hb.
  destruct (bs !! Z.to_nat p.1) as [rb|] eqn:Hrb; [|done]. cbn in Hb.
  apply list_eq. intros i. destruct (decide (i = Z.to_nat p.1)) as [->|Hi].
  - rewrite list_lookup_alter_eq, Hrb. cbn. f_equal.
    apply list_eq. intros j. destruct (decide (j = Z.to_nat p.2)) as [->|Hj].
    + rewrite list_lookup_alter_eq, Hb. cbn. by destruct b.
    + by rewrite list_lookup_alter_ne.
  - by rewrite list_lookup_alter_ne.
Qed.

Lemma paint_paint bs p c1 st1 c2 st2 :
  paint c2 st2 p (paint c1 st1 p bs)
  = alter (alter (configure c2 st2 ∘ configure c1 st1) (Z.to_nat p.2))
          (Z.to_nat p.1) bs.
Proof.
  unfold paint. rewrite list_alter_alter_eq.
  apply list_alter_ext; [|done]. intros rb _. cbn.
  by rewrite list_alter_alter_eq.
Qed.

(** A cell lit and then given back the colour it had. *)
Lemma paint_restore bs p b c :
  button_at bs p = Some b →
  paint (Some (bg b)) None p (paint (Some c) None p bs) = bs.
Proof.
  intros Hb. rewrite paint_paint. rewrite <- (paint_same_color bs p b Hb) at 2.
  unfold paint. apply list_alter_ext; [|done]. intros rb _.
  apply list_alter_ext; [|done]. by intros [] _.
Qed.

(** ** The steps of the display, run *)

Lemma py_index_lookup {A} (l : list A) (i : nat) x :
  l !! i = Some x → py_index l (Z.of_nat i) = Some x.
Proof.
  intros Hi. rewrite py_index_nat; [done|]. by eapply lookup_lt_Some.
Qed.

Lemma show_sequence_step_end s index :
  index >= Z.of_nat (length (correct_sequence s)) →
  show_sequence_step index s = finish_showing_sequence s.
Proof.
  intros Hi. unfold show_sequence_step. by rewrite bind_get, decide_True.
Qed.

Lemma show_sequence_step_run s (i : nat) p :
  grid_ok s → sequence_in_grid s → correct_sequence s !! i = Some p →
  show_sequence_step (Z.of_nat i) s
  = (inr tt,
     set_timers (timers s ++ [(1000, CbHide (Z.of_nat i))])
       (set_buttons (paint (Some highlight_color) None p (buttons s)) s)).
Proof.
  intros Hg Hin Hi. destruct p as [r c].
  destruct (Hin r c) as [Hr Hc]; [by eapply list_elem_of_lookup_2|].
  apply lookup_lt_Some in Hi as Hlt.
  unfold show_sequence_step. rewrite bind_get.
  rewrite decide_False by lia. rewrite (py_index_lookup _ _ _ Hi).
  erewrite bind_ok by (by apply configure_button_paint). reflexivity.
Qed.

Lemma hide_sequence_step_run s (i : nat) p :
  grid_ok s → sequence_in_grid s → correct_sequence s !! i = Some p →
  hide_sequence_step (Z.of_nat i) s
  = (inr tt,
     set_timers (timers s ++ [(200, CbShow (Z.of_nat i + 1))])
       (set_buttons (paint (Some default_color) None p (buttons s)) s)).
Proof.
  intros Hg Hin Hi. destruct p as [r c].
  destruct (Hin r c) as [Hr Hc]; [by eapply list_elem_of_lookup_2|].
  unfold hide_sequence_step. rewrite bind_get.
  rewrite (py_index_lookup _ _ _ Hi).
  erewrite bind_ok by (by apply configure_button_paint). reflexivity.
Qed.

(** ** The constructor *)

Lemma init_run w gs isl il :
  1 ≤ gs → 0 ≤ isl + (il - 1) →
  ∃ sample,
    Z.of_nat (length sample) = Z.min (gs * gs) (isl + (il - 1)) ∧
    NoDup sample ∧
    (∀ r c, (r, c) ∈ sample → 0 ≤ r < gs ∧ 0 ≤ c < gs) ∧
    init w gs isl il
    = show_sequence_step 0
        (round_base w sample (snd (create_widgets (blank gs isl il)))).
Proof.
  intros Hgs Hlen. unfold init.
  erewrite bind_ok by (by apply create_widgets_run).
  rewrite create_widgets_run by done. cbn [snd].
  match goal with |- context [start_new_round w ?s] =>
    destruct (start_new_round_run w s) as (sample & _ & Hl & Hnd & Hin & ->)
  end; [| cbn; lia | done |].
  { split; cbn.
    + by rewrite length_replicate.
    + apply Forall_replicate. by rewrite length_replicate. }
  exists sample. split; [exact Hl|]. split; [done|]. split; [exact Hin|done].
Qed.

Lemma init_sound w gs isl il :
  1 ≤ gs → 0 ≤ isl → 1 ≤ il → sound gs isl (snd (init w gs isl il)).
Proof.
  intros Hgs Hisl Hil. split; [apply init_board|].
  destruct (init_run w gs isl il) as (sample & _ & _ & _ & ->); [lia..|].
  apply (keeps_show_sequence_step
           (λ s, is_Some (round_start_time s) ∧ 1 ≤ level s)); try done.
  rewrite create_widgets_run by done. split; [by eexists | done].
Qed.

Lemma game_sound w gs isl il evs :
  1 ≤ gs → 0 ≤ isl → 1 ≤ il →
  sound gs isl (run evs (snd (init w gs isl il))).
Proof.
  intros Hgs Hisl Hil. apply keeps_run; [|by apply init_sound].
  intros w' e. apply safe_keeps with only_index, safe_dispatch; lia.
Qed.

(** X5.  In every game and after any events, the grid is the
    [grid_size] by [grid_size] board that [create_widgets] built, and
    [grid_size] and [initial_sequence_length] are what the constructor
    was given: no callback adds, removes or resizes anything. *)
Theorem game_board_in_place w gs isl il evs :
  let s := run evs (snd (init w gs isl il)) in
  grid_size s = gs ∧ initial_sequence_length s = isl ∧
  length (buttons s) = Z.to_nat gs ∧
  Forall (λ row_buttons, length row_buttons = Z.to_nat gs) (buttons s).
Proof.
  intros s. destruct (game_board w gs isl il evs) as (Hgs & Hisl & Hg & _).
  fold s in Hgs, Hisl, Hg. destruct Hg as [Hlen Hrows].
  rewrite Hgs in Hlen, Hrows. done.
Qed.

(** X6.  In every game and after any events, the sequence to reproduce
    consists of pairwise distinct cells of the grid, so it has at most
    [grid_size * grid_size] positions. *)
Theorem game_sequence_in_grid w gs isl il evs :
  let s := run evs (snd (init w gs isl il)) in
  NoDup (correct_sequence s) ∧
  (∀ r c, (r, c) ∈ correct_sequence s → 0 ≤ r < gs ∧ 0 ≤ c < gs) ∧
  Z.of_nat (length (correct_sequence s)) ≤ gs * gs.
Proof.
  intros s. destruct (game_board w gs isl il evs) as (Hgs & _ & _ & Hin & Hnd).
  fold s in Hgs, Hin, Hnd. unfold sequence_in_grid in Hin. rewrite Hgs in Hin.
  split; [done|]. split; [done|].
  destruct (decide (0 ≤ gs)) as [Hpos|Hneg].
  - rewrite <- (all_positions_length gs Hpos). apply inj_le.
    apply submseteq_length, NoDup_submseteq; [done|].
    intros [r c] Hp. by apply all_positions_elem, Hin.
  - destruct (correct_sequence s) as [|[r c] rest]; [simpl; nia|].
    destruct (Hin r c); [by left | lia].
Qed.

(** X7.  In a game built with a grid size of 1 or more (with less the
    constructor raises [TclError]), a first length of 0 or more and a
    first level of 1 or more, no callback ever raises [ValueError],
    [TypeError] or [TclError]: whatever the main loop delivers, a
    callback returns or raises [IndexError]; a round has always been
    started and the level is always 1 or more. *)
Theorem game_raises_only_index_error w gs isl il evs w' e :
  1 ≤ gs → 0 ≤ isl → 1 ≤ il →
  let s := run evs (snd (init w gs isl il)) in
  (fst (dispatch w' e s) = inr tt ∨ fst (dispatch w' e s) = inl IndexError) ∧
  is_Some (round_start_time s) ∧ 1 ≤ level s.
Proof.
  intros Hgs Hisl Hil s.
  pose proof (game_sound w gs isl il evs Hgs Hisl Hil) as Hs. fold s in Hs.
  split; [|apply Hs].
  assert (0 ≤ gs) as Hgs0 by lia.
  destruct (safe_dispatch gs isl Hgs0 Hisl w' e s Hs) as [_ He].
  destruct (fst (dispatch w' e s)) as [x|[]]; [right|by left]. by rewrite He.
Qed.

Lemma game_raises_only_index_error_witness :
  let s := run [(demo_later, Timer 0%nat)] (snd (init demo_world 2 3 1)) in
  (fst (dispatch demo_later (Click 0 0) s) = inr tt ∨
   fst (dispatch demo_later (Click 0 0) s) = inl IndexError) ∧
  is_Some (round_start_time s) ∧ 1 ≤ level s.
Proof.
  apply (game_raises_only_index_error demo_world 2 3 1
           [(demo_later, Timer 0%nat)] demo_later (Click 0 0)); lia.
Defined.



(** ** The display, from the first cell to the last *)

Lemma grid_ok_paint s s' c st p :
  grid_size s' = grid_size s →
  buttons s' = paint c st p (buttons s) →
  grid_ok s → grid_ok s'.
Proof.
  unfold grid_ok, paint. intros -> -> [Hlen Hrows]. split.
  - by rewrite length_alter.
  - apply Forall_alter; [done|]. intros rb _ Hrb. by rewrite length_alter.
Qed.

Lemma button_at_in_grid s p :
  grid_ok s → 0 ≤ p.1 < grid_size s → 0 ≤ p.2 < grid_size s →
  is_Some (button_at (buttons s) p).
Proof.
  intros Hg Hr Hc.
  destruct (grid_lookup s p.1 p.2 Hg Hr Hc) as (rb & b & Hrb & Hb).
  exists b. unfold button_at. by rewrite Hrb.
Qed.

Lemma run_app evs1 evs2 s : run (evs1 ++ evs2) s = run evs2 (run evs1 s).
Proof. apply foldl_app. Qed.

Lemma run_cons w e evs s :
  run ((w, e) :: evs) s = run evs (snd (dispatch w e s)).
Proof. reflexivity. Qed.

(** The callback that [show_sequence_step] has queued puts the cell out
    again and queues the next step. *)
Lemma show_then_hide s (i : nat) p w :
  grid_ok s → sequence_in_grid s → timers s = [] →
  correct_sequence s !! i = Some p →
  (∀ b, button_at (buttons s) p = Some b → bg b = default_color) →
  run [(w, Timer 0%nat)] (snd (show_sequence_step (Z.of_nat i) s))
  = set_timers [(200, CbShow (Z.of_nat i + 1))] s.
Proof.
  intros Hg Hin Ht Hi Hbg.
  assert (0 ≤ p.1 < grid_size s ∧ 0 ≤ p.2 < grid_size s) as [Hr Hc].
  { destruct p as [r c]. apply Hin. by eapply list_elem_of_lookup_2. }
  destruct (button_at_in_grid s p Hg Hr Hc) as [b Hb].
  rewrite (show_sequence_step_run s i p) by done. rewrite Ht.
  cbn [snd app]. rewrite run_cons. cbn [run foldl].
  unfold dispatch. rewrite bind_get. cbn [timers set_timers lookup].
  cbn [list_lookup]. rewrite bind_modify. cbn [run_callback].
  rewrite (hide_sequence_step_run _ i p);
    [|by apply (grid_ok_paint s _ (Some highlight_color) None p)|done|done].
  cbn -[paint].
  rewrite <- (Hbg b Hb), paint_restore by done.
  destruct s. cbn in *. by subst.
Qed.

(** The one callback that is waiting, run. *)
Lemma queued_show s ms index w :
  timers s = [] →
  run [(w, Timer 0%nat)] (set_timers [(ms, CbShow index)] s)
  = snd (show_sequence_step index s).
Proof.
  intros Ht. rewrite run_cons. cbn [run foldl].
  unfold dispatch. rewrite bind_get. cbn -[show_sequence_step].
  do 2 f_equal. destruct s. cbn in *. by subst.
Qed.

(** A cell of the sequence is lit by [show_sequence_step] and put out by
    the callback it has queued, which queues the next step. *)
Lemma show_hide_cycle s (i : nat) p w1 w2 :
  grid_ok s → sequence_in_grid s → timers s = [] →
  correct_sequence s !! i = Some p →
  (∀ b, button_at (buttons s) p = Some b → bg b = default_color) →
  run [(w1, Timer 0%nat); (w2, Timer 0%nat)]
      (snd (show_sequence_step (Z.of_nat i) s))
  = snd (show_sequence_step (Z.of_nat i + 1) s).
Proof.
  intros Hg Hin Ht Hi Hbg.
  change [(w1, Timer 0%nat); (w2, Timer 0%nat)]
    with ([(w1, Timer 0%nat)] ++ [(w2, Timer 0%nat)]).
  rewrite run_app, (show_then_hide s i p) by done. by apply queued_show.
Qed.

(** The first [2 * n] callbacks of the display bring it to step [n]. *)
Lemma display_steps s (n : nat) : ∀ (i : nat) ws,
  grid_ok s → sequence_in_grid s → timers s = [] →
  (∀ p b, p ∈ correct_sequence s → button_at (buttons s) p = Some b →
          bg b = default_color) →
  (i + n ≤ length (correct_sequence s))%nat →
  length ws = (2 * n)%nat →
  run ((λ w, (w, Timer 0%nat)) <$> ws)
      (snd (show_sequence_step (Z.of_nat i) s))
  = snd (show_sequence_step (Z.of_nat (i + n)) s).
Proof.
  induction n as [|n IH]; intros i ws Hg Hin Ht Hbg Hlen Hws.
  - destruct ws; [|done]. by rewrite Nat.add_0_r.
  - destruct ws as [|w1 [|w2 ws]]; [simpl in Hws; lia..|].
    destruct (lookup_lt_is_Some_2 (correct_sequence s) i) as [p Hp]; [lia|].
    change ((λ w, (w, Timer 0%nat)) <$> w1 :: w2 :: ws)
      with ([(w1, Timer 0%nat); (w2, Timer 0%nat)]
              ++ ((λ w, (w, Timer 0%nat)) <$> ws)).
    rewrite run_app.
    rewrite (show_hide_cycle s i p); try done.
    + replace (Z.of_nat i + 1) with (Z.of_nat (S i)) by lia.
      replace (i + S n)%nat with (S i + n)%nat by lia.
      apply IH; try done; [lia | simpl in Hws; lia].
    + intros b. apply Hbg. by eapply list_elem_of_lookup_2.
Qed.

(** X9.  The display of the sequence, callback by callback.  On a board
    in place whose sequence cells are grey, with no callback waiting,
    [show_sequence_step(0)] sets off a chain of exactly
    [2 * len(correct_sequence)] callbacks.  After the first [2 * i] of
    them cell [i] of the sequence is lit, on a board that is otherwise
    as it was, and the callback that hides it waits; after one more the
    board is as it was and the callback that shows cell [i + 1] waits.
    Until all [2 * len(correct_sequence)] have run exactly one callback
    waits and [showing_sequence] is as it was; then the state is the
    one [finish_showing_sequence] gives: the board and "Show Pattern
    Again" are enabled, [showing_sequence] is false and no callback
    waits. *)
Theorem display_chain s ws :
  grid_ok s → sequence_in_grid s → timers s = [] →
  (∀ p b, p ∈ correct_sequence s → button_at (buttons s) p = Some b →
          bg b = default_color) →
  length ws = (2 * length (correct_sequence s))%nat →
  let after (k : nat) :=
    run ((λ w, (w, Timer 0%nat)) <$> take k ws)
        (snd (show_sequence_step 0 s)) in
  (∀ (i : nat) p, correct_sequence s !! i = Some p →
     after (2 * i)%nat
     = set_timers [(1000, CbHide (Z.of_nat i))]
         (set_buttons (paint (Some highlight_color) None p (buttons s)) s) ∧
     (∃ b, button_at (buttons s) p = Some b ∧
           button_at (buttons (after (2 * i)%nat)) p
           = Some (mkButton highlight_color (state b))) ∧
     after (2 * i + 1)%nat
     = set_timers [(200, CbShow (Z.of_nat i + 1))] s) ∧
  (∀ k, (k < 2 * length (correct_sequence s))%nat →
     length (timers (after k)) = 1%nat ∧
     showing_sequence (after k) = showing_sequence s) ∧
  after (2 * length (correct_sequence s))%nat
  = snd (finish_showing_sequence s) ∧
  showing_sequence (snd (finish_showing_sequence s)) = false ∧
  timers (snd (finish_showing_sequence s)) = [] ∧
  show_pattern_button (snd (finish_showing_sequence s)) = normal ∧
  buttons (snd (finish_showing_sequence s))
  = fmap (M:=list) (configure None (Some normal)) <$> buttons s.
Proof.
  intros Hg Hin Ht Hbg Hws after.
  assert (∀ n, (n ≤ length (correct_sequence s))%nat →
    after (2 * n)%nat = snd (show_sequence_step (Z.of_nat n) s)) as Heven.
  { intros n Hn. unfold after.
    apply (display_steps s n 0 (take (2 * n) ws)); try done.
    rewrite length_take. lia. }
  assert (∀ (i : nat) p, correct_sequence s !! i = Some p →
    after (2 * i)%nat
    = set_timers [(1000, CbHide (Z.of_nat i))]
        (set_buttons (paint (Some highlight_color) None p (buttons s)) s) ∧
    after (2 * i + 1)%nat = set_timers [(200, CbShow (Z.of_nat i + 1))] s)
    as Hsteps.
  { intros i p Hp. apply lookup_lt_Some in Hp as Hlt.
    assert (after (2 * i)%nat
            = set_timers [(1000, CbHide (Z.of_nat i))]
                (set_buttons (paint (Some highlight_color) None p (buttons s))
                   s)) as Hlit.
    { rewrite Heven by lia. rewrite (show_sequence_step_run s i p) by done.
      by rewrite Ht. }
    split; [done|].
    destruct (lookup_lt_is_Some_2 ws (2 * i)) as [w Hw]; [lia|].
    unfold after. replace (2 * i + 1)%nat with (S (2 * i)) by lia.
    rewrite (take_S_r _ _ _ Hw), fmap_app, run_app.
    fold (after (2 * i)%nat). rewrite Heven by lia.
    apply (show_then_hide s i p); try done.
    intros b. apply Hbg. by eapply list_elem_of_lookup_2. }
  split; [|split; [|split]].
  - intros i p Hp. destruct (Hsteps i p Hp) as [Hlit Hout].
    split; [done|]. split; [|done].
    assert (0 ≤ p.1 < grid_size s ∧ 0 ≤ p.2 < grid_size s) as [Hr Hc].
    { destruct p as [r c]. apply Hin. by eapply list_elem_of_lookup_2. }
    destruct (button_at_in_grid s p Hg Hr Hc) as [b Hb].
    exists b. split; [done|]. rewrite Hlit. cbn [buttons set_timers set_buttons].
    by rewrite (button_at_paint_eq _ _ _ _ b).
  - intros k Hk.
    destruct (lookup_lt_is_Some_2 (correct_sequence s) (k / 2)) as [p Hp].
    { apply Nat.Div0.div_lt_upper_bound. lia. }
    destruct (Hsteps (k / 2)%nat p Hp) as [Hlit Hout].
    pose proof (Nat.div_mod_eq k 2) as Hdiv.
    pose proof (Nat.mod_upper_bound k 2) as Hmod.
    set (i := (k / 2)%nat) in *. clearbody i.
    assert (k = (2 * i)%nat ∨ k = (2 * i + 1)%nat) as [->| ->] by lia.
    + by rewrite Hlit.
    + by rewrite Hout.
  - by rewrite Heven, show_sequence_step_end by lia.
  - rewrite finish_showing_sequence_run by done. by cbn.
Qed.

Lemma demo_base_grid_ok : grid_ok demo_base.
Proof. split; [reflexivity | repeat constructor]. Defined.

Lemma demo_base_in_grid : sequence_in_grid demo_base.
Proof.
  intros r c Hin. simpl in Hin.
  repeat (apply elem_of_cons in Hin as [[= -> ->]|Hin]; [simpl; lia|]).
  by apply not_elem_of_nil in Hin.
Defined.

Lemma display_chain_witness :
  let after (k : nat) :=
    run ((λ w, (w, Timer 0%nat)) <$> take k (replicate 6 demo_later))
        (snd (show_sequence_step 0 demo_base)) in
  (∀ (i : nat) p, correct_sequence demo_base !! i = Some p →
     after (2 * i)%nat
     = set_timers [(1000, CbHide (Z.of_nat i))]
         (set_buttons
            (paint (Some highlight_color) None p (buttons demo_base))
            demo_base) ∧
     (∃ b, button_at (buttons demo_base) p = Some b ∧
           button_at (buttons (after (2 * i)%nat)) p
           = Some (mkButton highlight_color (state b))) ∧
     after (2 * i + 1)%nat
     = set_timers [(200, CbShow (Z.of_nat i + 1))] demo_base) ∧
  (∀ k, (k < 2 * length (correct_sequence demo_base))%nat →
     length (timers (after k)) = 1%nat ∧
     showing_sequence (after k) = showing_sequence demo_base) ∧
  after (2 * length (correct_sequence demo_base))%nat
  = snd (finish_showing_sequence demo_base) ∧
  showing_sequence (snd (finish_showing_sequence demo_base)) = false ∧
  timers (snd (finish_showing_sequence demo_base)) = [] ∧
  show_pattern_button (snd (finish_showing_sequence demo_base)) = normal ∧
  buttons (snd (finish_showing_sequence demo_base))
  = fmap (M:=list) (configure None (Some normal)) <$> buttons demo_base.
Proof.
  apply (display_chain demo_base (replicate 6 demo_later)
           demo_base_grid_ok demo_base_in_grid eq_refl); [|reflexivity].
  intros p b Hin Hb. simpl in Hin.
  repeat (apply elem_of_cons in Hin as [->|Hin];
          [vm_compute in Hb; by injection Hb as <-|]).
  by apply not_elem_of_nil in Hin.
Defined.

(** ** A press on a cell of the board *)

Lemma dispatch_click w s p b :
  0 ≤ p.1 → 0 ≤ p.2 →
  button_at (buttons s) p = Some b → state b = normal →
  dispatch w (Click (Z.to_nat p.1) (Z.to_nat p.2)) s
  = on_block_click w p.1 p.2 s.
Proof.
  intros Hr Hc Hb Hst. unfold dispatch. rewrite bind_get.
  unfold button_at in Hb. rewrite Hb, Hst. by rewrite !Z2Nat.id.
Qed.

Lemma on_block_click_right w s (i : nat) p :
  grid_ok s → sequence_in_grid s → showing_sequence s = false →
  sequence_index s = Z.of_nat i → correct_sequence s !! i = Some p →
  on_block_click w p.1 p.2 s
  = when (bool_decide (S i = length (correct_sequence s))) (end_round w true)
      (set_sequence_index (Z.of_nat (S i))
         (set_buttons
            (paint (Some correct_select_color) (Some disabled) p (buttons s))
            s)).
Proof.
  intros Hg Hin Hshow Hidx Hi. destruct p as [r c].
  destruct (Hin r c) as [Hr Hc]; [by eapply list_elem_of_lookup_2|].
  unfold on_block_click. rewrite bind_get, Hshow, Hidx.
  rewrite (py_index_lookup _ _ _ Hi). cbn [fst snd].
  rewrite decide_True by done.
  erewrite bind_ok by (by apply configure_button_paint).
  rewrite bind_modify, bind_get. cbn [sequence_index set_sequence_index
    set_buttons correct_sequence].
  rewrite Hidx. replace (Z.of_nat i + 1) with (Z.of_nat (S i)) by lia.
  f_equal. apply bool_decide_ext. lia.
Qed.

Lemma on_block_click_wrong w s (i : nat) p r c :
  grid_ok s → showing_sequence s = false →
  sequence_index s = Z.of_nat i → correct_sequence s !! i = Some p →
  0 ≤ r < grid_size s → 0 ≤ c < grid_size s → (r, c) ≠ p →
  on_block_click w r c s
  = end_round w false
      (set_buttons
         (paint (Some wrong_select_color) (Some disabled) (r, c) (buttons s))
         s).
Proof.
  intros Hg Hshow Hidx Hi Hr Hc Hne.
  unfold on_block_click. rewrite bind_get, Hshow, Hidx.
  rewrite (py_index_lookup _ _ _ Hi).
  rewrite decide_False by done.
  by erewrite bind_ok by (by apply configure_button_paint).
Qed.

(** ** The sequence clicked in order *)

Lemma set_index_buttons_twice i1 i2 bs1 bs2 s :
  set_sequence_index i2 (set_buttons bs2
    (set_sequence_index i1 (set_buttons bs1 s)))
  = set_sequence_index i2 (set_buttons bs2 s).
Proof. by destruct s. Qed.

Lemma drop_lookup_head {A} (l : list A) (i : nat) x rest :
  drop i l = x :: rest → l !! i = Some x ∧ drop (S i) l = rest.
Proof.
  intros Hdrop.
  assert (l !! i = Some x) as Hi.
  { rewrite <- (Nat.add_0_r i), <- lookup_drop, Hdrop. done. }
  split; [done|]. rewrite (drop_S _ _ _ Hi) in Hdrop. by injection Hdrop.
Qed.

Lemma play_from (rest : list Position) : ∀ p s (i : nat) ws,
  grid_ok s → sequence_in_grid s → NoDup (correct_sequence s) →
  showing_sequence s = false → sequence_index s = Z.of_nat i →
  drop i (correct_sequence s) = p :: rest →
  (∀ q b, q ∈ p :: rest → button_at (buttons s) q = Some b →
          state b = normal) →
  length ws = S (length rest) →
  ∃ w', last ws = Some w' ∧
    run (clicks ws (p :: rest)) s
    = snd (end_round w' true
             (set_sequence_index (Z.of_nat (length (correct_sequence s)))
                (set_buttons (marked (p :: rest) (buttons s)) s))).
Proof.
  induction rest as [|q rest IH]; intros p s i ws Hg Hin Hnd Hshow Hidx Hdrop
    Hnormal Hws; (destruct ws as [|w1 ws]; [done|]);
    destruct (drop_lookup_head _ _ _ _ Hdrop) as [Hi Hdrop'];
    assert (0 ≤ p.1 < grid_size s ∧ 0 ≤ p.2 < grid_size s) as [Hr Hc]
      by (destruct p as [r c]; apply Hin; by eapply list_elem_of_lookup_2);
    destruct (button_at_in_grid s p Hg Hr Hc) as [b Hb];
    apply (f_equal length) in Hdrop' as Hlen; rewrite length_drop in Hlen;
    apply lookup_lt_Some in Hi as Hlt;
    cbn [clicks zip_with]; rewrite run_cons;
    match goal with |- context [zip_with ?f ws ?r] =>
      change (zip_with f ws r) with (clicks ws r) end;
    (rewrite (dispatch_click w1 s p b);
       [|lia|lia|done|apply (Hnormal p b); [by left | done]]);
    rewrite (on_block_click_right w1 s i p) by done.
  - (* the last position *)
    destruct ws; [|done]. exists w1. split; [done|].
    assert (S i = length (correct_sequence s)) as Hlast
      by (simpl in Hlen; lia).
    rewrite bool_decide_true by done. cbn [when clicks zip_with run foldl].
    by rewrite Hlast.
  - rewrite bool_decide_false by (simpl in Hlen; lia).
    cbn [when ret snd].
    match goal with |- context [run _ ?s1] => set (s1' := s1) end.
    destruct (IH q s1' (S i) ws) as (w' & Hw' & Hrun); try done.
    + by apply (grid_ok_paint s _ (Some correct_select_color) (Some disabled) p).
    + intros p' b' Hp' Hb'. cbn in Hb'.
      assert (p' ∈ correct_sequence s) as Hp's.
      { rewrite <- (take_drop (S i) (correct_sequence s)), Hdrop'.
        apply elem_of_app. by right. }
      rewrite button_at_paint_ne in Hb'.
      * apply (Hnormal p' b'); [by right | done].
      * lia.
      * lia.
      * destruct p' as [r' c']. destruct (Hin r' c'); [done | simpl; lia].
      * destruct p' as [r' c']. destruct (Hin r' c'); [done | simpl; lia].
      * intros ->. rewrite <- (take_drop i (correct_sequence s)), Hdrop in Hnd.
        apply NoDup_app in Hnd as (_ & _ & Hnd).
        by apply NoDup_cons in Hnd as [Hnd _].
    + simpl in Hws. lia.
    + exists w'. split.
      { destruct ws; [done|]. done. }
      rewrite Hrun.
      subst s1'. cbn [correct_sequence set_sequence_index
        set_buttons buttons]. by rewrite set_index_buttons_twice.
Qed.

Lemma marked_cons p ps bs :
  marked (p :: ps) bs
  = marked ps (paint (Some correct_select_color) (Some disabled) p bs).
Proof. reflexivity. Qed.

Lemma grid_ok_marked ps s s' :
  grid_size s' = grid_size s → buttons s' = marked ps (buttons s) →
  grid_ok s → grid_ok s'.
Proof.
  unfold grid_ok. intros -> ->. generalize (buttons s).
  induction ps as [|q ps IH]; intros bs [Hl Hr]; [done|].
  rewrite marked_cons. apply IH. unfold paint. split.
  - by rewrite length_alter.
  - apply Forall_alter; [done|]. intros rb _ Hrb. by rewrite length_alter.
Qed.

Lemma button_at_fmap f (bs : list (list Button)) q :
  button_at (fmap (M:=list) f <$> bs) q = f <$> button_at bs q.
Proof.
  unfold button_at. rewrite list_lookup_fmap.
  destruct (bs !! Z.to_nat q.1) as [rb|]; [|done]. cbn.
  by rewrite list_lookup_fmap.
Qed.

Lemma button_at_marked_other ps : ∀ bs q,
  q ∉ ps → 0 ≤ q.1 → 0 ≤ q.2 → (∀ p, p ∈ ps → 0 ≤ p.1 ∧ 0 ≤ p.2) →
  button_at (marked ps bs) q = button_at bs q.
Proof.
  induction ps as [|p ps IH]; intros bs q Hq Hq1 Hq2 Hps; [done|].
  apply not_elem_of_cons in Hq as [Hne Hq].
  destruct (Hps p) as [Hp1 Hp2]; [by left|].
  rewrite marked_cons. rewrite IH; [|done..|].
  - by apply button_at_paint_ne.
  - intros p' Hp'. apply Hps. by right.
Qed.

Lemma button_at_marked ps : ∀ bs q b,
  q ∈ ps → NoDup ps → (∀ p, p ∈ ps → 0 ≤ p.1 ∧ 0 ≤ p.2) →
  button_at bs q = Some b →
  button_at (marked ps bs) q
  = Some (mkButton correct_select_color disabled).
Proof.
  induction ps as [|p ps IH]; intros bs q b Hq Hnd Hps Hb.
  { by apply not_elem_of_nil in Hq. }
  apply NoDup_cons in Hnd as [Hp Hnd].
  rewrite marked_cons.
  apply elem_of_cons in Hq as [->|Hq].
  - destruct (Hps p) as [Hp1 Hp2]; [by left|].
    rewrite button_at_marked_other; [|done..|].
    + by rewrite (button_at_paint_eq _ _ _ _ b).
    + intros p' Hp'. apply Hps. by right.
  - assert (p ≠ q) as Hne by (by intros ->).
    destruct (Hps p) as [Hp1 Hp2]; [by left|].
    destruct (Hps q) as [Hq1 Hq2]; [by right|].
    apply (IH _ _ b); [done|done| |].
    + intros p' Hp'. apply Hps. by right.
    + by rewrite button_at_paint_ne.
Qed.

(** X10.  The remaining positions of the sequence clicked in order win
    the round.  On a board in place that awaits input with the cursor at
    [i], the cells still to come enabled, the presses on
    [correct_sequence[i:]] one after the other end the round with a
    success at the last of them: one record is appended (its time read
    off the clock at that last press), the level and the streak go up by
    1, every button of the board is disabled and the clicked cells are
    green. *)
Theorem playing_the_sequence_wins s (i : nat) ws started :
  grid_ok s → sequence_in_grid s → NoDup (correct_sequence s) →
  showing_sequence s = false → round_start_time s = Some started →
  sequence_index s = Z.of_nat i → (i < length (correct_sequence s))%nat →
  (∀ q b, q ∈ drop i (correct_sequence s) →
          button_at (buttons s) q = Some b → state b = normal) →
  length ws = (length (correct_sequence s) - i)%nat →
  let s' := run (clicks ws (drop i (correct_sequence s))) s in
  ∃ w', last ws = Some w' ∧
    phase s' = Resolved (Some Success) ∧
    performance_data s'
    = performance_data s
        ++ [round_record w' true started (current_streak s + 1) s] ∧
    level s' = level s + 1 ∧
    current_streak s' = current_streak s + 1 ∧
    sequence_index s' = Z.of_nat (length (correct_sequence s)) ∧
    (∀ q b, button_at (buttons s') q = Some b → state b = disabled) ∧
    (∀ q, q ∈ drop i (correct_sequence s) →
          button_at (buttons s') q
          = Some (mkButton correct_select_color disabled)).
Proof.
  intros Hg Hin Hnd Hshow Hstart Hidx Hlt Hnormal Hws s'.
  destruct (drop i (correct_sequence s)) as [|p rest] eqn:Hdrop.
  { apply (f_equal length) in Hdrop. rewrite length_drop in Hdrop.
    simpl in Hdrop. lia. }
  destruct (play_from rest p s i ws) as (w' & Hw' & Hrun); try done.
  { apply (f_equal length) in Hdrop. rewrite length_drop in Hdrop.
    simpl in Hdrop. lia. }
  exists w'. split; [done|]. subst s'. rewrite Hrun. clear Hrun.
  set (s1 := set_sequence_index _ _).
  assert (grid_ok s1) as Hg1.
  { by apply (grid_ok_marked (p :: rest) s). }
  destruct (end_round_run w' true s1 started Hg1 Hstart) as (s2 & -> & Hs2).
  cbn [snd]. destruct Hs2. cbn -[marked paint button_at] in *.
  split; [|split; [|split; [done|split; [done|split; [done|split]]]]].
  - unfold phase. rewrite er_showing0, Hshow, er_next0, er_log0.
    by rewrite last_snoc.
  - by rewrite er_log0, er_streak0.
  - intros q b Hb. rewrite er_buttons0 in Hb. unfold button_at in Hb.
    by eapply configured_disabled.
  - intros q Hq. rewrite er_buttons0.
    assert (∀ p', p' ∈ p :: rest → 0 ≤ p'.1 ∧ 0 ≤ p'.2) as Hpos.
    { intros [r c] Hp'. destruct (Hin r c); [|simpl; lia].
      rewrite <- (take_drop i (correct_sequence s)), Hdrop.
      apply elem_of_app. by right. }
    assert (is_Some (button_at (buttons s) q)) as [b Hb].
    { destruct q as [r c]. apply button_at_in_grid; [done|..];
        destruct (Hin r c); try done;
        rewrite <- (take_drop i (correct_sequence s)), Hdrop;
        apply elem_of_app; by right. }
    assert (NoDup (p :: rest)) as Hnd'.
    { rewrite <- (take_drop i (correct_sequence s)), Hdrop in Hnd.
      by apply NoDup_app in Hnd as (_ & _ & Hnd). }
    pose proof (button_at_marked (p :: rest) (buttons s) q b Hq Hnd' Hpos Hb)
      as Hm.
    by rewrite button_at_fmap, Hm.
Qed.

Lemma demo_awaiting_NoDup : NoDup (correct_sequence demo_awaiting).
Proof. apply (bool_decide_unpack _). vm_compute. exact I. Defined.

Lemma playing_the_sequence_wins_witness :
  let s' := run (clicks (replicate 3 demo_later)
                   (drop 0 (correct_sequence demo_awaiting)))
                demo_awaiting in
  ∃ w', last (replicate 3 demo_later) = Some w' ∧
    phase s' = Resolved (Some Success) ∧
    performance_data s'
    = performance_data demo_awaiting
        ++ [round_record w' true 10%float
              (current_streak demo_awaiting + 1) demo_awaiting] ∧
    level s' = level demo_awaiting + 1 ∧
    current_streak s' = current_streak demo_awaiting + 1 ∧
    sequence_index s'
    = Z.of_nat (length (correct_sequence demo_awaiting)) ∧
    (∀ q b, button_at (buttons s') q = Some b → state b = disabled) ∧
    (∀ q, q ∈ drop 0 (correct_sequence demo_awaiting) →
          button_at (buttons s') q
          = Some (mkButton correct_select_color disabled)).
Proof.
  apply (playing_the_sequence_wins demo_awaiting 0 (replicate 3 demo_later)
           10%float demo_awaiting_grid_ok demo_awaiting_in_grid
           demo_awaiting_NoDup eq_refl eq_refl eq_refl).
  - simpl. lia.
  - intros q b Hq Hb. simpl in Hq.
    repeat (apply elem_of_cons in Hq as [->|Hq];
            [vm_compute in Hb; by injection Hb as <-|]).
    by apply not_elem_of_nil in Hq.
  - reflexivity.
Defined.

(** ** The keys of the summaries *)

Lemma count_record_keys key record d :
  (count_record key record d).*1
  = if decide (key ∈ d.*1) then d.*1 else d.*1 ++ [key].
Proof.
  unfold count_record.
  destruct (dict_get d key) as [st|] eqn:Hget.
  - rewrite decide_True.
    + by destruct (rec_result record); rewrite !dict_keys_update.
    + destruct (decide (key ∈ d.*1)) as [|Hn]; [done|].
      apply dict_get_None in Hn. congruence.
  - rewrite decide_False by (by apply dict_get_None).
    destruct (rec_result record);
      by rewrite !dict_keys_update, dict_keys_set, Hget.
Qed.

Lemma first_seen_fold (keys : list string) : ∀ acc,
  foldl (λ acc k, if decide (k ∈ acc) then acc else acc ++ [k]) acc keys
  = acc ++ filter (λ k, k ∉ acc) (first_seen keys).
Proof.
  induction keys as [|k keys IH]; intros acc; cbn [foldl first_seen].
  - by rewrite app_nil_r.
  - rewrite IH. destruct (decide (k ∈ acc)) as [Hin|Hout].
    + rewrite filter_cons_False by (by intros ?). f_equal.
      rewrite list_filter_filter. apply list_filter_iff.
      intros k'. split; [|tauto]. intros Hk'. split; [done|]. by intros ->.
    + rewrite filter_cons_True by done. rewrite <- app_assoc. cbn. do 2 f_equal.
      rewrite list_filter_filter. apply list_filter_iff.
      intros k'. rewrite not_elem_of_app, list_elem_of_singleton. tauto.
Qed.

Lemma filter_all {A} (P : A → Prop) `{∀ x, Decision (P x)} (l : list A) :
  (∀ x, x ∈ l → P x) → filter P l = l.
Proof.
  induction l as [|x l IH]; intros Hl; [done|].
  rewrite filter_cons_True by (apply Hl; by left).
  f_equal. apply IH. intros y Hy. apply Hl. by right.
Qed.

Lemma first_seen_elem keys k : k ∈ first_seen keys ↔ k ∈ keys.
Proof.
  induction keys as [|k0 keys IH]; [done|]. cbn [first_seen].
  rewrite !elem_of_cons, list_elem_of_filter, IH.
  destruct (decide (k = k0)); tauto.
Qed.

Lemma first_seen_NoDup keys : NoDup (first_seen keys).
Proof.
  induction keys as [|k0 keys IH]; [constructor|]. cbn [first_seen].
  apply NoDup_cons. split; [|by apply NoDup_filter].
  rewrite list_elem_of_filter. tauto.
Qed.

Lemma summary_keys (key : RoundRecord → string) log : ∀ d,
  (foldl (λ d r, count_record (key r) r d) d log).*1
  = foldl (λ acc k, if decide (k ∈ acc) then acc else acc ++ [k])
          d.*1 (key <$> log).
Proof.
  induction log as [|r log IH]; intros d; [done|].
  cbn [foldl fmap list_fmap]. rewrite IH. by rewrite count_record_keys.
Qed.

Lemma average_keys (d : Dict Stats) :
  ((λ '(k, stats), (k, average stats)) <$> d).*1 = d.*1.
Proof.
  rewrite <- list_fmap_compose. apply list_fmap_ext. by intros _ [k st] _.
Qed.

(** X11.  The keys of a summary come in the order in which the log first
    shows them: those of the daily summary are the dates of the records
    as 'YYYY-MM-DD', those of the monthly summary the records' month
    keys, each listed once, at the place of its first record. *)
Theorem summary_keys_first_seen log :
  (_compute_daily_stats log).*1
  = first_seen ((λ r, isoformat (rec_date r)) <$> log) ∧
  (_compute_monthly_stats log).*1 = first_seen (rec_month_key <$> log).
Proof.
  unfold _compute_daily_stats, _compute_monthly_stats.
  rewrite !average_keys.
  rewrite (summary_keys (λ r, isoformat (rec_date r))).
  rewrite (summary_keys rec_month_key).
  rewrite !first_seen_fold. cbn [fmap list_fmap app].
  split; apply filter_all; intros k _; apply not_elem_of_nil.
Qed.

(** ** "Show Pattern Again" *)

Lemma show_pattern_again_run s p rest :
  grid_ok s → sequence_in_grid s → correct_sequence s = p :: rest →
  show_pattern_again s
  = (inr tt,
     set_timers (timers s ++ [(1000, CbHide 0)])
       (set_buttons
          (paint (Some highlight_color) None p
             (fmap (M:=list) (configure None (Some disabled)) <$> buttons s))
          (set_message_label MsgReplaying
             (set_showing_sequence true
                (set_replay_count (replay_count s + 1) s))))).
Proof.
  intros Hg Hin Hseq. unfold show_pattern_again. repeat mstep.
  match goal with |- show_sequence_step 0 ?s1 = _ =>
    pose proof (show_sequence_step_run s1 0 p) as Hstep end.
  change (Z.of_nat 0) with 0 in Hstep. rewrite Hstep; [done| | |].
  - by apply (grid_ok_fmap (configure None (Some disabled)) s).
  - done.
  - cbn. by rewrite Hseq.
Qed.

Lemma replays_run ws : ∀ s p rest,
  grid_ok s → sequence_in_grid s → correct_sequence s = p :: rest →
  show_pattern_button s = normal →
  let s' := run ((λ w, (w, ShowPatternAgain)) <$> ws) s in
  grid_ok s' ∧
  replay_count s' = replay_count s + Z.of_nat (length ws) ∧
  timers s' = timers s ++ replicate (length ws) (1000, CbHide 0) ∧
  show_pattern_button s' = normal ∧
  (ws ≠ [] → showing_sequence s' = true) ∧
  correct_sequence s' = correct_sequence s ∧
  sequence_index s' = sequence_index s ∧
  performance_data s' = performance_data s ∧
  next_button s' = next_button s.
Proof.
  induction ws as [|w ws IH]; intros s p rest Hg Hin Hseq Hbtn.
  { cbn. rewrite Z.add_0_r, app_nil_r. repeat (split; [done|]). done. }
  cbn [fmap list_fmap]. rewrite run_cons.
  unfold dispatch. rewrite bind_get, Hbtn.
  rewrite (show_pattern_again_run s p rest) by done. cbn [snd].
  match goal with |- context [run _ ?s1] => set (s1' := s1) end.
  destruct (IH s1' p rest) as (H1 & H2 & H3 & H4 & H5 & H6 & H7 & H8 & H9);
    try done.
  - apply (grid_ok_paint
             (set_buttons (fmap (M:=list) (configure None (Some disabled))
                             <$> buttons s) s)
             _ (Some highlight_color) None p); [done|done|].
    by apply (grid_ok_fmap (configure None (Some disabled)) s).
  - cbv zeta. split; [done|]. rewrite H2, H3, H4, H6, H7, H8, H9.
    subst s1'. cbn [replay_count timers correct_sequence sequence_index
      performance_data next_button set_timers set_buttons set_message_label
      set_showing_sequence set_replay_count length replicate].
    rewrite <- app_assoc. cbn [app].
    split; [lia|]. repeat (split; [done|]). split; [|done].
    intros _. destruct ws as [|w' ws']; [done|]. by apply H5.
Qed.

(** X12.  "Show Pattern Again" stays enabled while the sequence is being
    replayed, and a press on it is accepted whatever the phase: with a
    board in place and a sequence that is not empty, [n] presses in a row
    add [n] to the replay count and queue [n] callbacks that each hide
    the first cell, so [n] displays run side by side; the sequence, the
    cursor and the log are left as they are. *)
Theorem replay_pressed_again s ws p rest :
  grid_ok s → sequence_in_grid s → correct_sequence s = p :: rest →
  show_pattern_button s = normal → ws ≠ [] →
  let s' := run ((λ w, (w, ShowPatternAgain)) <$> ws) s in
  replay_count s' = replay_count s + Z.of_nat (length ws) ∧
  timers s' = timers s ++ replicate (length ws) (1000, CbHide 0) ∧
  show_pattern_button s' = normal ∧
  phase s' = Displaying ∧
  correct_sequence s' = correct_sequence s ∧
  sequence_index s' = sequence_index s ∧
  performance_data s' = performance_data s.
Proof.
  intros Hg Hin Hseq Hbtn Hws s'.
  destruct (replays_run ws s p rest Hg Hin Hseq Hbtn)
    as (_ & H2 & H3 & H4 & H5 & H6 & H7 & H8 & _).
  fold s' in H2, H3, H4, H5, H6, H7, H8.
  repeat (split; [done|]). split; [|done].
  by apply phase_displaying, H5.
Qed.

Lemma replay_pressed_again_witness :
  let s' := run ((λ w, (w, ShowPatternAgain)) <$> [demo_later; demo_later])
                demo_awaiting in
  replay_count s' = replay_count demo_awaiting + Z.of_nat 2 ∧
  timers s' = timers demo_awaiting ++ replicate 2 (1000, CbHide 0) ∧
  show_pattern_button s' = normal ∧
  phase s' = Displaying ∧
  correct_sequence s' = correct_sequence demo_awaiting ∧
  sequence_index s' = sequence_index demo_awaiting ∧
  performance_data s' = performance_data demo_awaiting.
Proof.
  apply (replay_pressed_again demo_awaiting [demo_later; demo_later]
           (0, 0) [(0, 1); (1, 1)] demo_awaiting_grid_ok
           demo_awaiting_in_grid eq_refl eq_refl).
  discriminate.
Defined.

(** ** The next round *)

Lemma show_sequence_step_0_fields s :
  grid_ok s → sequence_in_grid s →
  let s' := snd (show_sequence_step 0 s) in
  fst (show_sequence_step 0 s) = inr tt ∧
  correct_sequence s' = correct_sequence s ∧
  sequence_index s' = sequence_index s ∧
  replay_count s' = replay_count s ∧
  round_start_time s' = round_start_time s ∧
  level s' = level s ∧
  performance_data s' = performance_data s ∧
  next_button s' = next_button s ∧
  showing_sequence s'
  = (if correct_sequence s is [] then false else showing_sequence s).
Proof.
  intros Hg Hin. destruct (correct_sequence s) as [|p rest] eqn:Hseq.
  - rewrite show_sequence_step_end by (rewrite Hseq; simpl; lia).
    rewrite finish_showing_sequence_run by done. cbn. by rewrite Hseq.
  - pose proof (show_sequence_step_run s 0 p Hg Hin) as Hstep.
    change (Z.of_nat 0) with 0 in Hstep.
    rewrite Hstep by (by rewrite Hseq). cbn. by rewrite Hseq.
Qed.

(** X13.  From the level at which
    [initial_sequence_length + level - 1] reaches the number of cells
    on, [start_new_round] returns a sequence that goes through the whole
    board: it is a permutation of the cells of the grid, each one
    exactly once. *)
Theorem full_board_sequence w s :
  grid_ok s → 0 ≤ grid_size s →
  grid_size s * grid_size s ≤ initial_sequence_length s + (level s - 1) →
  fst (start_new_round w s) = inr tt ∧
  correct_sequence (snd (start_new_round w s))
  ≡ₚ (r ← range (grid_size s); c ← range (grid_size s); [(r, c)]).
Proof.
  intros Hg Hgs Hfull.
  destruct (start_new_round_run w s Hg Hgs)
    as (sample & _ & Hl & Hnd & Hin & ->); [nia|].
  destruct (show_sequence_step_0_fields (round_base w sample s))
    as (Hret & Hseq & _).
  { by apply round_base_grid_ok. }
  { intros r c Hp. by apply Hin. }
  split; [done|]. rewrite Hseq. cbn [correct_sequence round_base
    set_correct_sequence].
  apply submseteq_length_Permutation.
  - apply NoDup_submseteq; [done|]. intros [r c] Hp.
    by apply all_positions_elem, Hin.
  - apply Nat2Z.inj_le. rewrite all_positions_length by done.
    rewrite Hl. unfold sequence_length. lia.
Qed.

Lemma full_board_sequence_witness :
  fst (start_new_round demo_world (set_level 2 demo_awaiting)) = inr tt ∧
  correct_sequence
    (snd (start_new_round demo_world (set_level 2 demo_awaiting)))
  ≡ₚ (r ← range 2; c ← range 2; [(r, c)]).
Proof.
  apply (full_board_sequence demo_world (set_level 2 demo_awaiting)
           demo_awaiting_grid_ok); simpl; lia.
Defined.

(** X14.  The round after: when a round has ended and "Next Round" is
    pressed, the new sequence has
    [min(grid_size^2, initial_sequence_length + level)] positions after
    a success at [level] (one more than before, up to the size of the
    board) and [min(grid_size^2, initial_sequence_length)] after a
    failure; the cursor and the replay count are back at 0, the clock is
    read anew, "Next Round" is disabled again and the log is the one
    the ended round left. *)
Theorem next_round_after w w' success s :
  grid_ok s → is_Some (round_start_time s) →
  0 ≤ grid_size s → 0 ≤ initial_sequence_length s → 1 ≤ level s →
  let s1 := snd (end_round w success s) in
  let s2 := run [(w', NextRound)] s1 in
  Z.of_nat (length (correct_sequence s2))
  = Z.min (grid_size s * grid_size s)
          (if success then initial_sequence_length s + level s
           else initial_sequence_length s) ∧
  NoDup (correct_sequence s2) ∧
  level s2 = (if success then level s + 1 else 1) ∧
  sequence_index s2 = 0 ∧ replay_count s2 = 0 ∧
  round_start_time s2 = Some (time_time w') ∧
  next_button s2 = disabled ∧
  performance_data s2 = performance_data s1 ∧
  length (performance_data s1) = S (length (performance_data s)).
Proof.
  intros Hg [started Ht] Hgs Hisl Hlevel s1 s2.
  destruct (end_round_run w success s started Hg Ht) as (s1' & Hrun & Hs1).
  assert (s1 = s1') as Hs1' by (subst s1; by rewrite Hrun).
  rewrite <- Hs1' in Hs1. clear Hrun Hs1' s1'. destruct Hs1.
  assert (grid_ok s1) as Hg1 by (by eapply grid_ok_fmap).
  subst s2. rewrite run_cons. cbn [run foldl].
  unfold dispatch. rewrite bind_get, er_next0.
  destruct (start_new_round_run w' s1 Hg1)
    as (sample & _ & Hl & Hnd & Hin & ->).
  { by rewrite er_grid_size0. }
  { rewrite er_initial0, er_level0. destruct success; lia. }
  destruct (show_sequence_step_0_fields (round_base w' sample s1))
    as (_ & -> & -> & -> & -> & -> & -> & -> & _).
  { by apply round_base_grid_ok. }
  { intros r c Hp. by apply Hin. }
  cbn [round_base correct_sequence sequence_index replay_count
    round_start_time level performance_data next_button
    set_correct_sequence set_message_label set_buttons set_round_start_time
    set_show_pattern_button set_next_button set_replay_count
    set_showing_sequence set_sequence_index].
  split.
  { rewrite Hl. unfold sequence_length.
    rewrite er_grid_size0, er_initial0, er_level0.
    destruct success; f_equal; lia. }
  repeat (split; [done|]).
  rewrite er_log0, length_app. simpl. lia.
Qed.

Lemma next_round_after_witness :
  let s1 := snd (end_round demo_later true demo_awaiting) in
  let s2 := run [(demo_later, NextRound)] s1 in
  Z.of_nat (length (correct_sequence s2))
  = Z.min (grid_size demo_awaiting * grid_size demo_awaiting)
          (initial_sequence_length demo_awaiting + level demo_awaiting) ∧
  NoDup (correct_sequence s2) ∧
  level s2 = level demo_awaiting + 1 ∧
  sequence_index s2 = 0 ∧ replay_count s2 = 0 ∧
  round_start_time s2 = Some (time_time demo_later) ∧
  next_button s2 = disabled ∧
  performance_data s2 = performance_data s1 ∧
  length (performance_data s1) = S (length (performance_data demo_awaiting)).
Proof.
  apply (next_round_after demo_later demo_later true demo_awaiting
           demo_awaiting_grid_ok (ex_intro _ 10%float eq_refl));
    simpl; lia.
Defined.

(** ** A round that cannot start *)

Lemma frozen_dispatch w e s : frozen s → dispatch w e s = (inr tt, s).
Proof.
  intros (Hnext & Hshow & Ht & Hbs). destruct e as [i j| | |k].
  - apply click_disabled. intros b Hb. by apply (Hbs i j).
  - unfold dispatch. by rewrite bind_get, Hnext.
  - unfold dispatch. by rewrite bind_get, Hshow.
  - unfold dispatch. by rewrite bind_get, Ht.
Qed.

Lemma frozen_run evs s : frozen s → run evs s = s.
Proof.
  intros Hs. induction evs as [|[w e] evs IH]; [done|].
  by rewrite run_cons, frozen_dispatch.
Qed.

Lemma start_new_round_raises w s :
  grid_ok s → 0 ≤ grid_size s →
  initial_sequence_length s + (level s - 1) < 0 →
  start_new_round w s
  = (inl ValueError,
     set_message_label (MsgWatch (level s))
       (set_buttons
          (fmap (M:=list) (configure (Some default_color) (Some disabled))
             <$> buttons s)
          (set_round_start_time (Some (time_time w))
             (set_show_pattern_button disabled
                (set_next_button disabled
                   (set_replay_count 0
                      (set_showing_sequence true
                         (set_sequence_index 0 s)))))))).
Proof.
  intros Hg Hgs Hneg. unfold start_new_round. repeat mstep. cbn.
  rewrite random_sample_raises; [done|]. nia.
Qed.

(** X15.  When [initial_sequence_length + level - 1] is negative,
    [start_new_round] raises the [ValueError] of [random.sample] after
    it has disabled the board and both buttons; with no callback waiting
    the game then stays as it is whatever is pressed: nothing is enabled
    any more. *)
Theorem start_new_round_raise_freezes w s :
  grid_ok s → 0 ≤ grid_size s → timers s = [] →
  initial_sequence_length s + (level s - 1) < 0 →
  fst (start_new_round w s) = inl ValueError ∧
  frozen (snd (start_new_round w s)) ∧
  ∀ evs, run evs (snd (start_new_round w s)) = snd (start_new_round w s).
Proof.
  intros Hg Hgs Ht Hneg. rewrite start_new_round_raises by done.
  split; [done|]. cbn [snd].
  match goal with |- frozen ?s' ∧ _ => assert (frozen s') as Hfrozen end.
  { split; [done|]. split; [done|]. split; [done|].
    intros i j b Hb. cbn in Hb. by eapply configured_disabled. }
  split; [done|]. intros evs. by apply frozen_run.
Qed.

Lemma start_new_round_raise_freezes_witness :
  let s := snd (create_widgets (blank 2 (-1) 1)) in
  fst (start_new_round demo_world s) = inl ValueError ∧
  frozen (snd (start_new_round demo_world s)) ∧
  ∀ evs, run evs (snd (start_new_round demo_world s))
         = snd (start_new_round demo_world s).
Proof.
  apply (start_new_round_raise_freezes demo_world
           (snd (create_widgets (blank 2 (-1) 1)))).
  - split; [reflexivity | repeat constructor].
  - simpl. lia.
  - reflexivity.
  - simpl. lia.
Defined.

(** ** A round with nothing to reproduce *)








(** ** The averages *)

(** X17.  Every entry of a summary counts one round at least, so the
    conditional that guards the division never takes its [else 0]
    branch: the 'avg_time' of an entry of the daily or of the monthly
    summary is always the float [total_time / rounds], never the int 0. *)
Theorem average_is_float log k st :
  dict_get (_compute_daily_stats log) k = Some st ∨
  dict_get (_compute_monthly_stats log) k = Some st →
  1 ≤ rounds st ∧
  avg_time st
  = Some (PyFloat (PrimFloat.div (total_time st) (float_of_int (rounds st)))) ∧
  avg_time st ≠ Some (PyInt 0).
Proof.
  assert (∀ key,
    dict_get ((λ '(k0, stats), (k0, average stats))
                <$> foldl (λ d r, count_record (key r) r d) [] log) k = Some st →
    1 ≤ rounds st ∧
    avg_time st
    = Some (PyFloat (PrimFloat.div (total_time st)
                       (float_of_int (rounds st))))) as Hentry.
  { intros key. rewrite summary_get.
    destruct (keyed key k log) as [|r group]; [done|].
    intros [= <-]. split; [simpl; lia | reflexivity]. }
  intros [Hd|Hm].
  - destruct (Hentry (λ r, isoformat (rec_date r)) Hd) as [H1 H2].
    split; [done|]. split; [done|]. by rewrite H2.
  - destruct (Hentry rec_month_key Hm) as [H1 H2].
    split; [done|]. split; [done|]. by rewrite H2.
Qed.

Lemma average_is_float_witness :
  let st := mkStats 1 0 1 2.5 (Some (PyFloat 2.5)) in
  1 ≤ rounds st ∧
  avg_time st
  = Some (PyFloat (PrimFloat.div (total_time st) (float_of_int (rounds st)))) ∧
  avg_time st ≠ Some (PyInt 0).
Proof.
  apply (average_is_float
           [mkRecord 1 1 Fail 2.5 0 (mkDate 2025 2 3) "2025-02" 0]
           "2025-02-03").
  left. vm_compute. reflexivity.
Defined.

(** ** A display that ends late *)

(** X18.  [finish_showing_sequence] does not look at whether the round is
    over: when a callback of a display that is still waiting runs
    [show_sequence_step] past the end of the sequence, every button of
    the board is enabled again and so is "Show Pattern Again", whatever
    the state of "Next Round"; the log, the level, the cursor and the
    sequence are left as they are, so a round that was resolved stays
    resolved with its board open to clicks. *)
Theorem late_display_enables_board s w (k : nat) ms index :
  grid_ok s → timers s !! k = Some (ms, CbShow index) →
  index >= Z.of_nat (length (correct_sequence s)) →
  let s' := run [(w, Timer k)] s in
  fst (dispatch w (Timer k) s) = inr tt ∧
  (∀ q b, button_at (buttons s') q = Some b → state b = normal) ∧
  (∀ q, is_Some (button_at (buttons s) q) →
        is_Some (button_at (buttons s') q)) ∧
  show_pattern_button s' = normal ∧ showing_sequence s' = false ∧
  next_button s' = next_button s ∧
  performance_data s' = performance_data s ∧ level s' = level s ∧
  sequence_index s' = sequence_index s ∧
  correct_sequence s' = correct_sequence s ∧
  timers s' = delete k (timers s).
Proof.
  intros Hg Hk Hidx s'. subst s'. rewrite run_cons. cbn [run foldl].
  unfold dispatch. rewrite bind_get, Hk, bind_modify. cbn [run_callback].
  rewrite show_sequence_step_end by done.
  rewrite finish_showing_sequence_run by done. cbn.
  split; [done|]. split; [|split; [|done]].
  - intros q b. rewrite button_at_fmap.
    destruct (button_at (buttons s) q) as [b'|]; [|done].
    by intros [= <-].
  - intros q [b Hb]. rewrite button_at_fmap, Hb. by eexists.
Qed.

Lemma late_display_enables_board_witness :
  let s' := run [(demo_later, Timer 0%nat)] demo_late in
  fst (dispatch demo_later (Timer 0%nat) demo_late) = inr tt ∧
  (∀ q b, button_at (buttons s') q = Some b → state b = normal) ∧
  (∀ q, is_Some (button_at (buttons demo_late) q) →
        is_Some (button_at (buttons s') q)) ∧
  show_pattern_button s' = normal ∧ showing_sequence s' = false ∧
  next_button s' = next_button demo_late ∧
  performance_data s' = performance_data demo_late ∧
  level s' = level demo_late ∧
  sequence_index s' = sequence_index demo_late ∧
  correct_sequence s' = correct_sequence demo_late ∧
  timers s' = delete 0%nat (timers demo_late).
Proof.
  apply (late_display_enables_board demo_late demo_later 0 200 3).
  - split; [reflexivity | repeat constructor].
  - reflexivity.
  - simpl. lia.
Defined.

(** ** A display on a board of any colours *)







(** ** A replay and its display *)







(** ** Within a round *)

Lemma same_round_blind s0 : widget_blind (same_round s0).
Proof. by split. Qed.

Lemma keeps_same_round_dispatch s0 w e :
  e ≠ NextRound → keeps (same_round s0) (dispatch w e).
Proof.
  intros He. pose proof (same_round_blind s0) as Hb.
  unfold dispatch. apply keeps_bind_get. intros s1 _.
  destruct e as [row col| | |k]; [| done | |].
  - unfold on_block_click, end_round, when. keeps_tac;
      intros s (K1 & K2 & K3 & K4 & K5 & K6);
      repeat split; cbn; try done; try lia; by apply prefix_app_r.
  - unfold show_pattern_again, show_sequence_step, finish_showing_sequence.
    keeps_tac; intros s (K1 & K2 & K3 & K4 & K5 & K6);
      repeat split; cbn; try done; lia.
  - unfold run_callback, hide_sequence_step, show_sequence_step,
      finish_showing_sequence.
    keeps_tac; intros s (K1 & K2 & K3 & K4 & K5 & K6);
      repeat split; cbn; try done; lia.
Qed.

(** X19.  As long as "Next Round" is not pressed the round stays the same
    one: whatever clicks, replays and timer callbacks are delivered, the
    sequence and the start time of the round are unchanged, the cursor
    and the replay count never go back (a replay does not reset the
    cursor) and no record leaves the log; so the time a record reports
    runs from the start of the round, displays and replays included. *)
Theorem within_a_round s evs :
  Forall (λ ev, ev.2 ≠ NextRound) evs →
  let s' := run evs s in
  round_start_time s' = round_start_time s ∧
  correct_sequence s' = correct_sequence s ∧
  grid_size s' = grid_size s ∧
  replay_count s ≤ replay_count s' ∧
  sequence_index s ≤ sequence_index s' ∧
  performance_data s `prefix_of` performance_data s'.
Proof.
  intros Hevs. cbv zeta. change (same_round s (run evs s)).
  assert (same_round s s) as Hs by (by repeat split).
  revert Hs. generalize s at 2 4. intros s1 Hs1. revert s1 Hs1.
  induction evs as [|[w e] evs IH]; intros s1 Hs1; [done|].
  apply Forall_cons in Hevs as [He Hevs].
  rewrite run_cons. apply IH; [done|].
  by apply keeps_same_round_dispatch.
Qed.

Lemma within_a_round_witness :
  let evs := [(demo_later, Click 0 0); (demo_later, ShowPatternAgain);
              (demo_later, Timer 0%nat)] in
  let s' := run evs demo_awaiting in
  round_start_time s' = round_start_time demo_awaiting ∧
  correct_sequence s' = correct_sequence demo_awaiting ∧
  grid_size s' = grid_size demo_awaiting ∧
  replay_count demo_awaiting ≤ replay_count s' ∧
  sequence_index demo_awaiting ≤ sequence_index s' ∧
  performance_data demo_awaiting `prefix_of` performance_data s'.
Proof.
  apply (within_a_round demo_awaiting
           [(demo_later, Click 0 0); (demo_later, ShowPatternAgain);
            (demo_later, Timer 0%nat)]).
  repeat (apply Forall_cons_2; [discriminate|]). apply Forall_nil_2.
Defined.

(** ** What the constructor does with its arguments *)

